(** * The Line relay server (src/server.js): a shallow embedding

    The server keeps all of its data in module-level JavaScript values: an
    array of messages, an array of users, a plain object [fileChunks] used as
    a map from [from + "_" + fileName] to chunk-set objects, the journalist's
    public key and a [Map] of rate-limit records.  Every route handler is a
    synchronous function, so a request is one atomic transition of that
    state.  The handlers are embedded as functions from a request and a state
    to a response and a new state; timers ([setTimeout], [setInterval]) are
    transitions of their own.

    Conventions.
    - JSON numbers are the finite doubles and the two infinities (a literal
      such as 1e999 parses to Infinity; NaN cannot be written in JSON).  A
      finite double is represented by the rational it denotes, so -0 and 0
      coincide, which is also what property keys and [===] do.
    - Strings are sequences of code units and [String.length] counts them.
    - [Date.now()] and [Math.random()] are inputs of the transition. *)

From Stdlib Require Import QArith Qcanon Ascii String.
From stdpp Require Import base numbers strings pretty countable fin_maps gmap list.

Open Scope Z_scope.
Set Warnings "-register-all".

(** ** JavaScript values that reach the handlers *)

Inductive jsnum :=
| NFin (q : Qc)
| NPosInf
| NNegInf.

Global Instance jsnum_eq_dec : EqDecision jsnum.
Proof. solve_decision. Defined.

Global Instance jsnum_countable : Countable jsnum.
Proof.
  refine (inj_countable'
    (λ n, match n with
          | NFin q => inl q | NPosInf => inr true | NNegInf => inr false
          end)
    (λ s, match s with
          | inl q => NFin q | inr true => NPosInf | inr false => NNegInf
          end) _).
  by intros [].
Defined.

Definition num_of_Z (z : Z) : jsnum := NFin (Qc_of_Z z).
Definition num_of_nat (n : nat) : jsnum := num_of_Z (Z.of_nat n).

(** A number is an integer when it is finite with denominator one
    ([Number.isInteger]). *)
Definition is_integer (n : jsnum) : bool :=
  match n with
  | NFin q => bool_decide (Qden (this q) = 1%positive)
  | _ => false
  end.

(** What [express.json()] and the query parser can put in a field; a field
    that is absent reads as [JUndef]. *)
Inductive json :=
| JUndef
| JNull
| JBool (b : bool)
| JNum (n : jsnum)
| JStr (s : string)
| JArr (items : list json)
| JObj (fields : list (string * json)).

(** ToBoolean. *)
Definition truthy (v : json) : bool :=
  match v with
  | JUndef | JNull => false
  | JBool b => b
  | JNum (NFin q) => negb (bool_decide (q = Qc_of_Z 0))
  | JNum _ => true
  | JStr s => negb (String.eqb s "")
  | JArr _ | JObj _ => true
  end.

(** [typeof v === 'string'] and [typeof v === 'number']. *)
Definition is_string (v : json) : bool :=
  match v with JStr _ => true | _ => false end.
Definition is_number (v : json) : bool :=
  match v with JNum _ => true | _ => false end.

(** The string (number) held by a value that passed the [typeof] test. *)
Definition str_of (v : json) : string :=
  match v with JStr s => s | _ => "" end.
Definition num_of (v : json) : jsnum :=
  match v with JNum n => n | _ => NFin (Qc_of_Z 0) end.

(** [a || b]. *)
Definition js_or (a b : json) : json := if truthy a then a else b.

(** [v === s] for a string [s]: only the same string is strictly equal. *)
Definition strict_eq_str (v : json) (s : string) : bool :=
  match v with JStr s' => String.eqb s' s | _ => false end.

(** [v === process.env.X]: an environment variable is a string or
    undefined. *)
Definition strict_eq_env (v : json) (e : option string) : bool :=
  match e, v with
  | None, JUndef => true
  | Some s, JStr s' => String.eqb s' s
  | _, _ => false
  end.

(** ** Security constants *)

Definition MAX_MESSAGES : Z := 10000.
Definition MAX_USERS : Z := 5000.
Definition MAX_MESSAGE_SIZE : Z := 100000.
Definition MAX_CHUNK_SIZE : Z := 100000.
Definition RATE_LIMIT_WINDOW : Z := 60000.
Definition RATE_LIMIT_MAX_REQUESTS : Z := 100.
Definition EXPIRATION_TIME : Z := 24 * 60 * 60 * 1000.

(** ** Rate limiting middleware *)

Module RateRecord.
Record t := mk { count : Z; resetTime : Z }.
End RateRecord.

Inductive admission := Next | TooManyRequests.

Definition client_identifier (ip : option string) : string :=
  match ip with
  | Some s => if String.eqb s "" then "unknown" else s
  | None => "unknown"
  end.

Definition fresh_record (now : Z) : RateRecord.t :=
  RateRecord.mk 1 (now + RATE_LIMIT_WINDOW).

Definition rateLimit (ip : option string) (now : Z)
    (rateLimitMap : gmap string RateRecord.t)
  : admission * gmap string RateRecord.t :=
  let identifier := client_identifier ip in
  match rateLimitMap !! identifier with
  | None => (Next, <[identifier := fresh_record now]> rateLimitMap)
  | Some record =>
      if now >? RateRecord.resetTime record then
        (Next, <[identifier := fresh_record now]> rateLimitMap)
      else if RateRecord.count record >=? RATE_LIMIT_MAX_REQUESTS then
        (TooManyRequests, rateLimitMap)
      else
        (Next,
         <[identifier := RateRecord.mk (RateRecord.count record + 1)
                                       (RateRecord.resetTime record)]>
           rateLimitMap)
  end.

(** The periodic clean-up of the rate-limit map. *)
Definition rateLimitCleanup (now : Z) (rateLimitMap : gmap string RateRecord.t)
  : gmap string RateRecord.t :=
  filter (λ kv : string * RateRecord.t, ¬ (now > RateRecord.resetTime kv.2))
         rateLimitMap.

(** Consecutive calls of the middleware by one client, at the given times:
    the decisions taken, in order, and the final map. *)
Fixpoint admit_all (ip : option string) (times : list Z)
    (m : gmap string RateRecord.t)
  : list admission * gmap string RateRecord.t :=
  match times with
  | [] => ([], m)
  | now :: rest =>
      let '(a, m1) := rateLimit ip now m in
      let '(others, m2) := admit_all ip rest m1 in
      (a :: others, m2)
  end.

(** ** In-memory storage *)

(** [str.length] as a number. *)
Definition strlen (s : string) : Z := Z.of_nat (String.length s).

(** Chunk-set objects live in a heap and are referred to by address: the
    message pushed on completion holds the very object that [fileChunks]
    still maps the key to. *)
Abbreviation loc := nat.

Module ChunkSet.
Record t := mk {
  from : string;
  fileName : string;
  fileType : json;
  fileSize : json;
  totalChunks : jsnum;
  chunks : gmap jsnum string;
  lastUpdate : option Z
}.

(** [cs.chunks[chunkIndex] = chunkData; cs.lastUpdate = now]. *)
Definition store_chunk (chunkIndex : jsnum) (chunkData : string) (now : Z)
    (cs : t) : t :=
  mk (from cs) (fileName cs) (fileType cs) (fileSize cs) (totalChunks cs)
     (<[chunkIndex := chunkData]> (chunks cs)) (Some now).
End ChunkSet.

Module Message.
Record t := mk {
  id : string;
  from : string;
  to : json;
  encryptedData : json;
  timestamp : json;
  hasFiles : json;
  userPublicKey : json;
  fileData : option loc
}.
End Message.

Module User.
Record t := mk { hash : string; lastActive : Z }.
End User.

Record state := mkState {
  rateLimitMap : gmap string RateRecord.t;
  messages : list Message.t;
  users : list User.t;
  fileChunks : gmap string loc;
  heap : list ChunkSet.t;
  journalistPublicKey : option string;
  pendingCleanups : list string
}.

Definition initial : state := mkState ∅ [] [] ∅ [] None [].

Definition set_rateLimitMap (m : gmap string RateRecord.t) (st : state) :=
  mkState m (messages st) (users st) (fileChunks st) (heap st)
          (journalistPublicKey st) (pendingCleanups st).
Definition set_messages (ms : list Message.t) (st : state) :=
  mkState (rateLimitMap st) ms (users st) (fileChunks st) (heap st)
          (journalistPublicKey st) (pendingCleanups st).
Definition set_users (us : list User.t) (st : state) :=
  mkState (rateLimitMap st) (messages st) us (fileChunks st) (heap st)
          (journalistPublicKey st) (pendingCleanups st).
Definition set_fileChunks (fc : gmap string loc) (st : state) :=
  mkState (rateLimitMap st) (messages st) (users st) fc (heap st)
          (journalistPublicKey st) (pendingCleanups st).
Definition set_heap (h : list ChunkSet.t) (st : state) :=
  mkState (rateLimitMap st) (messages st) (users st) (fileChunks st) h
          (journalistPublicKey st) (pendingCleanups st).
Definition set_journalistPublicKey (k : option string) (st : state) :=
  mkState (rateLimitMap st) (messages st) (users st) (fileChunks st) (heap st)
          k (pendingCleanups st).
Definition set_pendingCleanups (ts : list string) (st : state) :=
  mkState (rateLimitMap st) (messages st) (users st) (fileChunks st) (heap st)
          (journalistPublicKey st) ts.

(** What a handler sends back.  [Threw] is an exception escaping the
    handler, which Express turns into a 500 response. *)
Inductive response :=
| Registered (journalistPublicKey : option string)
| Success
| Sent (messageId : string)
| ChunkProgress (received : nat) (total : jsnum)
| Messages (msgs : list Message.t)
| HealthOk (timestamp : Z)
| Error (status : Z) (error : string)
| Threw.

(** The readings a handler takes from its environment: the successive
    results of [Date.now()] and the suffix
    [Math.random().toString(36).substr(2, 9)]. *)
Record environment := mkEnv { dateNow : nat → Z; randomSuffix : string }.

Definition new_id (now : Z) (env : environment) : string :=
  pretty now +:+ randomSuffix env.

(** ** Input validation helpers *)

Definition is_hex_digit (c : ascii) : bool :=
  let n := nat_of_ascii c in
  ((97 <=? n) && (n <=? 102))%nat || ((48 <=? n) && (n <=? 57))%nat.

(** [/^[a-f0-9]+$/.test(s)]. *)
Definition all_hex (s : string) : bool :=
  negb (String.eqb s "") && forallb is_hex_digit (list_ascii_of_string s).

Definition validateHash (hash : json) : bool :=
  truthy hash && is_string hash && (strlen (str_of hash) =? 32)
  && all_hex (str_of hash).

Definition validateMessageData (data : json) : bool :=
  truthy data && is_string data && (strlen (str_of data) <=? MAX_MESSAGE_SIZE).

(** ** Property lookup on the plain object [fileChunks]

    [fileChunks] is created as [{}], so [fileChunks[key]] also finds what
    the object inherits from [Object.prototype]: functions, and for
    ["__proto__"] the prototype object itself.  All of them are truthy and
    none has a [chunks] property. *)

Definition objectPrototypeProperties : list string :=
  [ "constructor"; "__defineGetter__"; "__defineSetter__"; "hasOwnProperty";
    "__lookupGetter__"; "__lookupSetter__"; "isPrototypeOf";
    "propertyIsEnumerable"; "toString"; "valueOf"; "__proto__";
    "toLocaleString" ]%string.

Inductive property :=
| Own (l : loc)
| Inherited
| Missing.

Definition get_fileChunks (key : string) (fc : gmap string loc) : property :=
  match fc !! key with
  | Some l => Own l
  | None =>
      if bool_decide (key ∈ objectPrototypeProperties) then Inherited
      else Missing
  end.

(** ** Route handlers *)

Definition has_user (hash : string) (us : list User.t) : bool :=
  existsb (λ u, String.eqb (User.hash u) hash) us.

(** [users.find(u => u.hash === hash).lastActive = now]. *)
Fixpoint touch_user (hash : string) (now : Z) (us : list User.t)
  : list User.t :=
  match us with
  | [] => []
  | u :: rest =>
      if String.eqb (User.hash u) hash then User.mk (User.hash u) now :: rest
      else u :: touch_user hash now rest
  end.

Definition registerUser (hash : json) (env : environment) (st : state)
  : response * state :=
  if negb (validateHash hash) then (Error 400 "Invalid hash format", st) else
  let h := str_of hash in
  if (Z.of_nat (length (users st)) >=? MAX_USERS) && negb (has_user h (users st))
  then (Error 503 "Server capacity reached", st) else
  let st' :=
    if negb (has_user h (users st))
    then set_users (users st ++ [User.mk h (dateNow env 0)]) st
    else set_users (touch_user h (dateNow env 0) (users st)) st in
  (Registered (journalistPublicKey st'), st').

Definition key_truthy (k : option string) : bool :=
  match k with
  | Some s => negb (String.eqb s "")
  | None => false
  end.

Definition registerJournalist (JOURNALIST_SECRET : option string)
    (publicKey secret : json) (st : state) : response * state :=
  if key_truthy (journalistPublicKey st)
     && negb (strict_eq_env secret JOURNALIST_SECRET)
  then (Error 403 "Unauthorized", st) else
  if negb (truthy publicKey) || negb (is_string publicKey)
  then (Error 400 "Invalid public key", st) else
  (Success, set_journalistPublicKey (Some (str_of publicKey)) st).

Module MessageBody.
Record t := mk {
  from : json;
  to : json;
  encryptedData : json;
  timestamp : json;
  hasFiles : json;
  userPublicKey : json
}.
End MessageBody.

Definition sendMessage (body : MessageBody.t) (env : environment) (st : state)
  : response * state :=
  let from := MessageBody.from body in
  let encryptedData := MessageBody.encryptedData body in
  if negb (truthy from) || negb (is_string from)
  then (Error 400 "Invalid sender", st) else
  if negb (validateMessageData encryptedData)
  then (Error 400 "Invalid message data", st) else
  if Z.of_nat (length (messages st)) >=? MAX_MESSAGES
  then (Error 503 "Server capacity reached", st) else
  let message :=
    Message.mk
      (new_id (dateNow env 0) env)
      (str_of from)
      (js_or (MessageBody.to body) JNull)
      encryptedData
      (js_or (MessageBody.timestamp body) (JNum (num_of_Z (dateNow env 1))))
      (js_or (MessageBody.hasFiles body) (JBool false))
      (js_or (MessageBody.userPublicKey body) JNull)
      None in
  (Sent (Message.id message), set_messages (messages st ++ [message]) st).

Module ChunkBody.
Record t := mk {
  from : json;
  chunkIndex : json;
  totalChunks : json;
  chunkData : json;
  fileName : json;
  fileType : json;
  fileSize : json
}.
End ChunkBody.

Definition chunk_key (from fileName : string) : string :=
  from +:+ "_" +:+ fileName.

(** [if (!fileChunks[chunkKey]) fileChunks[chunkKey] = { ..., chunks: {} }]. *)
Definition ensure_chunk_set (chunkKey : string) (body : ChunkBody.t)
    (st : state) : state :=
  match get_fileChunks chunkKey (fileChunks st) with
  | Missing =>
      let fresh :=
        ChunkSet.mk (str_of (ChunkBody.from body))
                    (str_of (ChunkBody.fileName body))
                    (ChunkBody.fileType body) (ChunkBody.fileSize body)
                    (num_of (ChunkBody.totalChunks body)) ∅ None in
      set_fileChunks (<[chunkKey := length (heap st)]> (fileChunks st))
        (set_heap (heap st ++ [fresh]) st)
  | _ => st
  end.

Definition file_message (from : string) (l : loc) (env : environment)
  : Message.t :=
  Message.mk (new_id (dateNow env 1) env) from JUndef JUndef
             (JNum (num_of_Z (dateNow env 2))) (JBool true) JUndef (Some l).

(** Lines 206 to 230 of the chunk route, once the chunk set is there:
    write the chunk, count the stored indices, push the file message and
    schedule the clean-up when the count is the request's [totalChunks]. *)
Definition write_chunk (chunkKey : string) (body : ChunkBody.t)
    (env : environment) (st1 : state) : response * state :=
  let from := str_of (ChunkBody.from body) in
  let chunkIndex := num_of (ChunkBody.chunkIndex body) in
  let totalChunks := num_of (ChunkBody.totalChunks body) in
  let chunkData := str_of (ChunkBody.chunkData body) in
  match get_fileChunks chunkKey (fileChunks st1) with
  | Own l =>
      match heap st1 !! l with
      | Some cs =>
          let cs' :=
            ChunkSet.store_chunk chunkIndex chunkData (dateNow env 0) cs in
          let st2 := set_heap (<[l := cs']> (heap st1)) st1 in
          let receivedChunks := size (ChunkSet.chunks cs') in
          let st3 :=
            if bool_decide (num_of_nat receivedChunks = totalChunks)
            then
              set_pendingCleanups (pendingCleanups st2 ++ [chunkKey])
                (set_messages (messages st2 ++ [file_message from l env]) st2)
            else st2 in
          (ChunkProgress receivedChunks totalChunks, st3)
      | None =>
          (* an address that was never allocated: not met in a reachable
             state, see [reachable_chunk_set_allocated] *)
          (Threw, st1)
      end
  | _ =>
      (* fileChunks[chunkKey].chunks is undefined: the assignment throws *)
      (Threw, st1)
  end.

Definition sendChunk (body : ChunkBody.t) (env : environment) (st : state)
  : response * state :=
  let from := ChunkBody.from body in
  let chunkIndex := ChunkBody.chunkIndex body in
  let totalChunks := ChunkBody.totalChunks body in
  let chunkData := ChunkBody.chunkData body in
  let fileName := ChunkBody.fileName body in
  if negb (truthy from) || negb (is_string from)
  then (Error 400 "Invalid sender", st) else
  if negb (is_number chunkIndex) || negb (is_number totalChunks)
  then (Error 400 "Invalid chunk metadata", st) else
  if negb (truthy chunkData) || negb (is_string chunkData)
     || (strlen (str_of chunkData) >? MAX_CHUNK_SIZE)
  then (Error 400 "Invalid chunk data", st) else
  if negb (truthy fileName) || negb (is_string fileName)
     || (strlen (str_of fileName) >? 255)
  then (Error 400 "Invalid filename", st) else
  let chunkKey := chunk_key (str_of from) (str_of fileName) in
  write_chunk chunkKey body env (ensure_chunk_set chunkKey body st).

Definition concerns (hash : string) (msg : Message.t) : bool :=
  String.eqb (Message.from msg) hash || strict_eq_str (Message.to msg) hash.

Definition getMessages (userType : string) (hash : json) (st : state)
  : response * state :=
  if String.eqb userType "journalist" then (Messages (messages st), st)
  else if negb (validateHash hash) then (Error 400 "Invalid user hash", st)
  else (Messages (List.filter (concerns (str_of hash)) (messages st)), st).

(** [for (let i = n - 1; i >= 0; i--)
       if (messages[i].from === hash) messages.splice(i, 1)]. *)
Fixpoint nuke_loop (n : nat) (hash : string) (msgs : list Message.t)
  : list Message.t :=
  match n with
  | O => msgs
  | S i =>
      match msgs !! i with
      | Some m =>
          if String.eqb (Message.from m) hash
          then nuke_loop i hash (delete i msgs)
          else nuke_loop i hash msgs
      | None => nuke_loop i hash msgs
      end
  end.

(** [users.findIndex(...)] followed by [users.splice(userIndex, 1)]. *)
Fixpoint remove_user (hash : string) (us : list User.t) : list User.t :=
  match us with
  | [] => []
  | u :: rest =>
      if String.eqb (User.hash u) hash then rest
      else u :: remove_user hash rest
  end.

Definition drop_chunk_sets (hash : string) (fc : gmap string loc)
  : gmap string loc :=
  filter (λ kv : string * loc, String.prefix (hash +:+ "_") kv.1 = false) fc.

Definition nukeUser (hash : json) (st : state) : response * state :=
  if negb (validateHash hash) then (Error 400 "Invalid user hash", st) else
  let h := str_of hash in
  let st1 := set_messages (nuke_loop (length (messages st)) h (messages st)) st in
  let st2 := set_users (remove_user h (users st1)) st1 in
  let st3 := set_fileChunks (drop_chunk_sets h (fileChunks st2)) st2 in
  (Success, st3).

Definition health (env : environment) (st : state) : response * state :=
  (HealthOk (dateNow env 0), st).

(** ** Timers *)

(** The callback scheduled on completion: [delete fileChunks[chunkKey]]. *)
Definition chunkCleanup (chunkKey : string) (st : state) : state :=
  set_fileChunks (delete chunkKey (fileChunks st)) st.

(** The hourly sweep removes the messages for which
    [now - msg.timestamp > EXPIRATION_TIME].  The timestamp is whatever
    truthy value the sender supplied, so the test goes through the engine's
    number coercion; [expired] stands for its outcome. *)
Definition expireMessages (expired : Message.t → bool) (st : state) : state :=
  set_messages (List.filter (λ m, negb (expired m)) (messages st)) st.

(** What is known of that test: on an integral timestamp in the exactly
    representable range it is the comparison on integers. *)
Definition expiry_test (now : Z) (expired : Message.t → bool) : Prop :=
  ∀ m z, Message.timestamp m = JNum (num_of_Z z) →
         - 2 ^ 53 ≤ z ≤ 2 ^ 53 →
         expired m = (now - z >? EXPIRATION_TIME).

(** ** The server *)

Inductive request :=
| RegisterUser (hash : json)
| RegisterJournalist (publicKey secret : json)
| SendMessage (body : MessageBody.t)
| SendChunk (body : ChunkBody.t)
| GetMessages (userType : string) (hash : json)
| NukeUser (hash : json)
| Health.

Section Server.
(** [process.env.JOURNALIST_SECRET]. *)
Context (JOURNALIST_SECRET : option string).

Definition handle (r : request) (env : environment) (st : state)
  : response * state :=
  match r with
  | RegisterUser hash => registerUser hash env st
  | RegisterJournalist publicKey secret =>
      registerJournalist JOURNALIST_SECRET publicKey secret st
  | SendMessage body => sendMessage body env st
  | SendChunk body => sendChunk body env st
  | GetMessages userType hash => getMessages userType hash st
  | NukeUser hash => nukeUser hash st
  | Health => health env st
  end.

(** A request goes through the rate limiter, then to its route. *)
Definition serve (ip : option string) (now : Z) (r : request)
    (env : environment) (st : state) : response * state :=
  let '(decision, m) := rateLimit ip now (rateLimitMap st) in
  let st1 := set_rateLimitMap m st in
  match decision with
  | TooManyRequests =>
      (Error 429 "Too many requests. Please try again later.", st1)
  | Next => handle r env st1
  end.

(** What can happen to the state: a request is served, or one of the
    timers fires.  A clean-up callback fires only after it was scheduled;
    the two periodic sweeps may fire at any time. *)
Inductive event :=
| Request (ip : option string) (now : Z) (r : request) (env : environment)
| ChunkCleanup (before : list string) (key : string) (after : list string)
| Expire (now : Z) (expired : Message.t → bool)
| RateCleanup (now : Z).

Inductive fires : event → state → state → Prop :=
| fires_request ip now r env st :
    fires (Request ip now r env) st (serve ip now r env st).2
| fires_chunk_cleanup before key after st :
    pendingCleanups st = before ++ key :: after →
    fires (ChunkCleanup before key after) st
          (set_pendingCleanups (before ++ after) (chunkCleanup key st))
| fires_expire now expired st :
    expiry_test now expired →
    fires (Expire now expired) st (expireMessages expired st)
| fires_rate_cleanup now st :
    fires (RateCleanup now) st
          (set_rateLimitMap (rateLimitCleanup now (rateLimitMap st)) st).

Definition step (st st' : state) : Prop := ∃ e, fires e st st'.

Definition reachable (st : state) : Prop := rtc step initial st.
End Server.

(** The chunk sets currently held by the reassembler. *)
Definition chunk_set_at (st : state) (key : string) : option ChunkSet.t :=
  fileChunks st !! key ≫= λ l, heap st !! l.

(** Completed file messages in the store. *)
Definition is_file_message (m : Message.t) : bool :=
  match Message.hasFiles m, Message.fileData m with
  | JBool true, Some _ => true
  | _, _ => false
  end.

Definition file_messages_from (from : string) (st : state) : list Message.t :=
  List.filter (λ m, is_file_message m && String.eqb (Message.from m) from)
              (messages st).

(** A call at [now] opens a new window for the client: the client has no
    record, or its record's window is over. *)
Definition opens_window (ip : option string) (now : Z)
    (m : gmap string RateRecord.t) : Prop :=
  match m !! client_identifier ip with
  | None => True
  | Some record => now > RateRecord.resetTime record
  end.

(** ** Sample inputs used in the examples *)

Definition sample_env : environment :=
  mkEnv (λ _, 1700000000000) "k3x9q0zab".

Definition sample_ip : option string := Some "203.0.113.7"%string.

(** The state after a first journalist registration with key ["PUB1"] and an
    empty secret. *)
Definition after_first_journalist (J : option string) : state :=
  (serve J sample_ip 0 (RegisterJournalist (JStr "PUB1") (JStr ""))
         sample_env initial).2.

Definition sample_hash : string := "0123456789abcdef0123456789abcdef".
Definition other_hash : string := "ffffffffffffffffffffffffffffffff".

Definition text_from (from : string) (to : json) : MessageBody.t :=
  MessageBody.mk (JStr from) to (JStr "3q2+7w==") JUndef JUndef JUndef.

(** A store holding one message of [sample_hash], one of [other_hash]
    addressed to [sample_hash], and one of a sender that is not a hash. *)
Definition sample_store : state :=
  (sendMessage (text_from "alice" JUndef) sample_env
     (sendMessage (text_from other_hash (JStr sample_hash)) sample_env
        (sendMessage (text_from sample_hash JUndef) sample_env initial).2).2).2.

(** ** Chunked transfers *)

(** What the chunk route demands of the payload and of the file name. *)
Definition valid_chunk_data (d : string) : Prop :=
  d ≠ ""%string ∧ strlen d ≤ MAX_CHUNK_SIZE.
Definition valid_file_name (f : string) : Prop :=
  f ≠ ""%string ∧ strlen f ≤ 255.

(** The request carrying chunk [i] of a transfer declared as [N] chunks. *)
Definition chunk_of (from fileName : string) (N : nat) (data : nat → string)
    (fileType fileSize : json) (i : nat) : ChunkBody.t :=
  ChunkBody.mk (JStr from) (JNum (num_of_nat i)) (JNum (num_of_nat N))
               (JStr (data i)) (JStr fileName) fileType fileSize.

(** Consecutive chunk requests: the responses, in order, and the final
    state. *)
Fixpoint submit_all (reqs : list (ChunkBody.t * environment)) (st : state)
  : list response * state :=
  match reqs with
  | [] => ([], st)
  | (body, env) :: rest =>
      let '(r, st1) := sendChunk body env st in
      let '(rs, st2) := submit_all rest st1 in
      (r :: rs, st2)
  end.

(** The requests of a whole transfer, chunk indices in the order [order];
    [env_of i] is the environment met by the request of chunk [i]. *)
Definition transfer (from fileName : string) (N : nat) (data : nat → string)
    (fileType fileSize : json) (env_of : nat → environment)
    (order : list nat) : list (ChunkBody.t * environment) :=
  (λ i, (chunk_of from fileName N data fileType fileSize i, env_of i))
    <$> order.

(** ** Bounds on a chunk set *)

Definition num_le (a b : jsnum) : Prop :=
  match a, b with
  | NNegInf, _ => True
  | _, NPosInf => True
  | NFin x, NFin y => (x ≤ y)%Qc
  | _, _ => False
  end.

(** [n - 1]. *)
Definition num_pred (n : jsnum) : jsnum :=
  match n with
  | NFin q => NFin (q - 1)%Qc
  | _ => n
  end.

(** The set holds at most [totalChunks] indices, each between 0 and
    [totalChunks - 1]. *)
Definition chunks_bounded (cs : ChunkSet.t) : Prop :=
  num_le (num_of_nat (size (ChunkSet.chunks cs))) (ChunkSet.totalChunks cs)
  ∧ ∀ i, is_Some (ChunkSet.chunks cs !! i) →
         num_le (num_of_nat 0) i
         ∧ num_le i (num_pred (ChunkSet.totalChunks cs)).

(** The [totalChunks] that counts for a chunk request: the one recorded in
    the chunk set of its key or, when there is none yet, its own, which the
    set will record. *)
Definition declared_total (body : ChunkBody.t) (st : state) : jsnum :=
  let key := chunk_key (str_of (ChunkBody.from body))
                       (str_of (ChunkBody.fileName body)) in
  match chunk_set_at st key with
  | Some cs => ChunkSet.totalChunks cs
  | None => num_of (ChunkBody.totalChunks body)
  end.

(** A chunk request whose index is a natural number below the declared
    total, itself a natural number.  Nothing in the server checks this. *)
Definition index_in_range (body : ChunkBody.t) (st : state) : Prop :=
  ∃ i t : nat,
    ChunkBody.chunkIndex body = JNum (num_of_nat i)
    ∧ declared_total body st = num_of_nat t
    ∧ (i < t)%nat.

(** A body that passes the four guards of the chunk route. *)
Definition accepted_chunk (body : ChunkBody.t) : Prop :=
  ∃ from ci tc data fileName,
    body = ChunkBody.mk (JStr from) (JNum ci) (JNum tc) (JStr data)
             (JStr fileName) (ChunkBody.fileType body)
             (ChunkBody.fileSize body)
    ∧ from ≠ ""%string
    ∧ valid_file_name fileName
    ∧ valid_chunk_data data.

(** The key a chunk request writes under. *)
Definition body_key (body : ChunkBody.t) : string :=
  chunk_key (str_of (ChunkBody.from body)) (str_of (ChunkBody.fileName body)).

(** An event is in range for a key when, if it is a chunk request that the
    rate limiter lets through, that passes the guards of the route and that
    writes under this key, its index is in range.  Requests for other keys,
    refused requests and the other events are not constrained. *)
Definition in_range_for (key : string) (e : event) (st : state) : Prop :=
  match e with
  | Request ip now (SendChunk body) _ =>
      (rateLimit ip now (rateLimitMap st)).1 = Next →
      accepted_chunk body →
      body_key body = key →
      index_in_range body st
  | _ => True
  end.

(** The states reached when the chunk requests written under [key] are in
    range. *)
Definition reachable_in_range_for (J : option string) (key : string)
    (st : state) : Prop :=
  rtc (λ st st', ∃ e, in_range_for key e st ∧ fires J e st st') initial st.

(** The indices of a set are natural numbers below its recorded total,
    itself a natural number. *)
Definition indices_below_total (cs : ChunkSet.t) : Prop :=
  ∃ t : nat,
    ChunkSet.totalChunks cs = num_of_nat t
    ∧ ∀ q, is_Some (ChunkSet.chunks cs !! q) →
           ∃ i : nat, q = num_of_nat i ∧ (i < t)%nat.

(** The shape of the reassembler's store, seen from one key: every key
    points into the heap, no two keys share a chunk-set object, and the chunk
    set under [key] has its indices below its total. *)
Definition key_inv (key : string) (fc : gmap string loc)
    (h : list ChunkSet.t) : Prop :=
  (∀ k l, fc !! k = Some l → (l < length h)%nat)
  ∧ (∀ k1 k2 l, fc !! k1 = Some l → fc !! k2 = Some l → k1 = k2)
  ∧ (∀ l cs, fc !! key = Some l → h !! l = Some cs → indices_below_total cs).

(** Every address under a key is allocated, and no key is the name of an
    inherited property. *)
Definition fileChunks_wf (fc : gmap string loc) (h : list ChunkSet.t) : Prop :=
  (∀ key l, fc !! key = Some l → (l < length h)%nat)
  ∧ (∀ key, key ∈ objectPrototypeProperties → fc !! key = None).

(** ** More sample inputs *)

Definition sample_chunk (from fileName : string) (chunkIndex totalChunks : jsnum)
  : ChunkBody.t :=
  ChunkBody.mk (JStr from) (JNum chunkIndex) (JNum totalChunks) (JStr "QUJD")
               (JStr fileName) (JStr "text/plain") (JNum (num_of_Z 3)).

(** A one-chunk file. *)
Definition one_chunk_file : ChunkBody.t :=
  sample_chunk "u1" "a.txt" (num_of_Z 0) (num_of_Z 1).

(** Two chunks of a file declared as one chunk, at indices 5 and 7. *)
Definition after_stray_chunks (J : option string) : state :=
  (serve J sample_ip 1
     (SendChunk (sample_chunk "u1" "a.txt" (num_of_Z 7) (num_of_Z 1)))
     sample_env
     (serve J sample_ip 0
        (SendChunk (sample_chunk "u1" "a.txt" (num_of_Z 5) (num_of_Z 1)))
        sample_env initial).2).2.

(** Index 5 of a one-chunk file of [u1], then chunk 0 of a two-chunk file
    of [u2]. *)
Definition after_mixed_chunks (J : option string) : state :=
  (serve J sample_ip 1
     (SendChunk (sample_chunk "u2" "b.txt" (num_of_Z 0) (num_of_Z 2)))
     sample_env
     (serve J sample_ip 0
        (SendChunk (sample_chunk "u1" "a.txt" (num_of_Z 5) (num_of_Z 1)))
        sample_env initial).2).2.

(** A chunk at index 1.5, and a chunk of a file of 2.5 chunks. *)
Definition fractional_index_chunk : ChunkBody.t :=
  sample_chunk "u1" "a.txt" (NFin (Q2Qc (3 # 2))) (num_of_Z 1).
Definition fractional_total_chunk : ChunkBody.t :=
  sample_chunk "u1" "b.txt" (num_of_Z 0) (NFin (Q2Qc (5 # 2))).

(** A chunk whose index is the string ["0"]. *)
Definition string_index_chunk : ChunkBody.t :=
  ChunkBody.mk (JStr "u1") (JStr "0") (JNum (num_of_Z 1)) (JStr "QUJD")
               (JStr "a.txt") JUndef JUndef.

(** The three chunks of the file of the example, as they arrive: indices 0,
    2, 1; then chunk 1 once more, before the clean-up has run. *)
Definition three_chunks : list (ChunkBody.t * environment) :=
  transfer "u1" "a.txt" 3 (λ _, "QUJD"%string) (JStr "text/plain")
           (JNum (num_of_Z 12)) (λ _, sample_env) [0; 2; 1]%nat.

Definition after_three_chunks : state := (submit_all three_chunks initial).2.

Definition retransmitted_chunk : ChunkBody.t :=
  chunk_of "u1" "a.txt" 3 (λ _, "QUJD"%string) (JStr "text/plain")
           (JNum (num_of_Z 12)) 1.

(** A sender and a file name whose key is ["__proto__"]. *)
Definition proto_chunk : ChunkBody.t :=
  sample_chunk "_" "proto__" (num_of_Z 0) (num_of_Z 1).

(** Filling the store through the message route: the [k]-th request comes
    one window and one millisecond after the one before, so the rate limiter
    lets each of them through. *)
Definition spaced (k : nat) : Z := Z.of_nat k * (RATE_LIMIT_WINDOW + 1).

Fixpoint flooded (J : option string) (n : nat) : state :=
  match n with
  | O => initial
  | S k =>
      (serve J sample_ip (spaced k) (SendMessage (text_from "alice" JUndef))
             sample_env (flooded J k)).2
  end.

Definition full (J : option string) : state :=
  flooded J (Z.to_nat MAX_MESSAGES).

(** Then a one-chunk file arrives. *)
Definition overfull (J : option string) : state :=
  (serve J sample_ip (spaced (Z.to_nat MAX_MESSAGES)) (SendChunk one_chunk_file)
         sample_env (full J)).2.


(** ** Further invariants and observations *)

(** A response that reports a failure: an error status, or an exception. *)
Definition is_failure (r : response) : bool :=
  match r with
  | Error _ _ | Threw => true
  | _ => false
  end.

(** The registry holds each hash once, only valid hashes, and never more
    than the maximum. *)
Definition registry_inv (us : list User.t) : Prop :=
  NoDup (User.hash <$> us)
  ∧ (∀ u, u ∈ us → validateHash (JStr (User.hash u)) = true)
  ∧ Z.of_nat (length us) ≤ MAX_USERS.

(** Every rate-limit record counts between one and the budget. *)
Definition counts_in_budget (m : gmap string RateRecord.t) : Prop :=
  ∀ id record, m !! id = Some record →
               1 ≤ RateRecord.count record ≤ RATE_LIMIT_MAX_REQUESTS.

(** The states reached when no request goes to the chunk route. *)
Definition no_chunk_event (e : event) : Prop :=
  match e with
  | Request _ _ (SendChunk _) _ => False
  | _ => True
  end.

Definition reachable_without_chunks (J : option string) (st : state) : Prop :=
  rtc (λ st st', ∃ e, no_chunk_event e ∧ fires J e st st') initial st.

(** The chunk set a stored message shows as its [fileData]. *)
Definition file_data_of (st : state) (m : Message.t) : option ChunkSet.t :=
  Message.fileData m ≫= λ l, heap st !! l.

(** The chunk mapping of a complete file of [N] chunks. *)
Definition all_chunks (N : nat) (data : nat → string) : gmap jsnum string :=
  list_to_map ((λ i, (num_of_nat i, data i)) <$> seq 0 N).

(** ** Sample states for the further properties *)

(** Two registrations of [sample_hash] and one of [other_hash]. *)
Definition after_registrations (J : option string) : state :=
  (serve J sample_ip 2 (RegisterUser (JStr other_hash)) sample_env
     (serve J sample_ip 1 (RegisterUser (JStr sample_hash)) sample_env
        (serve J sample_ip 0 (RegisterUser (JStr sample_hash)) sample_env
           initial).2).2).2.

(** A message of [other_hash] addressed to [sample_hash]. *)
Definition after_one_message (J : option string) : state :=
  (serve J sample_ip 0 (SendMessage (text_from other_hash (JStr sample_hash)))
         sample_env initial).2.

(** Chunk 1 of the example file, sent again with another payload. *)
Definition altered_chunk : ChunkBody.t :=
  ChunkBody.mk (JStr "u1") (JNum (num_of_nat 1)) (JNum (num_of_nat 3))
               (JStr "WFla") (JStr "a.txt") (JStr "text/plain")
               (JNum (num_of_Z 12)).

(** The first chunk of another file of the same sender. *)
Definition other_file_chunk : ChunkBody.t :=
  sample_chunk "u1" "b.txt" (num_of_Z 0) (num_of_Z 2).

(** * Properties *)

(** ** Admission control *)

Section RateLimit.
Implicit Types (m : gmap string RateRecord.t) (ip : option string).

Lemma rateLimit_first_seen ip now m :
  m !! client_identifier ip = None →
  rateLimit ip now m = (Next, <[client_identifier ip := fresh_record now]> m).
Proof. intros Hnone. unfold rateLimit. by rewrite Hnone. Qed.

Lemma rateLimit_expired ip now m record :
  m !! client_identifier ip = Some record →
  now > RateRecord.resetTime record →
  rateLimit ip now m = (Next, <[client_identifier ip := fresh_record now]> m).
Proof.
  intros Hrec Hlate. unfold rateLimit. rewrite Hrec.
  destruct (Z.gtb_spec now (RateRecord.resetTime record)); [done | lia].
Qed.

Lemma rateLimit_counts ip now m c R :
  m !! client_identifier ip = Some (RateRecord.mk c R) →
  now ≤ R → c < RATE_LIMIT_MAX_REQUESTS →
  rateLimit ip now m
  = (Next, <[client_identifier ip := RateRecord.mk (c + 1) R]> m).
Proof.
  intros Hrec Hin Hc. unfold rateLimit. rewrite Hrec. simpl.
  destruct (Z.gtb_spec now R); [lia |].
  destruct (Z.geb_spec c RATE_LIMIT_MAX_REQUESTS); [lia | done].
Qed.

Lemma rateLimit_full ip now m c R :
  m !! client_identifier ip = Some (RateRecord.mk c R) →
  now ≤ R → RATE_LIMIT_MAX_REQUESTS ≤ c →
  rateLimit ip now m = (TooManyRequests, m).
Proof.
  intros Hrec Hin Hc. unfold rateLimit. rewrite Hrec. simpl.
  destruct (Z.gtb_spec now R); [lia |].
  destruct (Z.geb_spec c RATE_LIMIT_MAX_REQUESTS); [done | lia].
Qed.

(** Calls inside the window are let through as long as the count stays
    within the budget, and each one adds one to the count. *)
Lemma admit_all_within ip times : ∀ m c R,
  m !! client_identifier ip = Some (RateRecord.mk c R) →
  Forall (λ t, t ≤ R) times →
  c + Z.of_nat (length times) ≤ RATE_LIMIT_MAX_REQUESTS →
  admit_all ip times m
  = (replicate (length times) Next,
     <[client_identifier ip :=
         RateRecord.mk (c + Z.of_nat (length times)) R]> m).
Proof.
  induction times as [| t times IH]; intros m c R Hrec Hin Hbudget.
  - simpl. rewrite Z.add_0_r. by rewrite insert_id.
  - inversion Hin as [| ? ? Ht Hrest]; subst.
    cbn [admit_all length] in *.
    rewrite (rateLimit_counts ip t m c R) by (done || lia).
    rewrite (IH _ (c + 1) R); [| by rewrite lookup_insert_eq | done | lia].
    rewrite insert_insert_eq. cbn [replicate].
    do 3 f_equal. lia.
Qed.

Lemma admit_all_app ip ts1 ts2 m :
  admit_all ip (ts1 ++ ts2) m
  = let r1 := admit_all ip ts1 m in
    let r2 := admit_all ip ts2 r1.2 in
    (r1.1 ++ r2.1, r2.2).
Proof.
  revert m. induction ts1 as [| t ts1 IH]; intros m; simpl.
  - by destruct (admit_all ip ts2 m).
  - destruct (rateLimit ip t m) as [a m1]. rewrite IH. simpl.
    destruct (admit_all ip ts1 m1) as [d1 m2]. simpl.
    by destruct (admit_all ip ts2 m2).
Qed.
End RateLimit.

Lemma rateLimit_opens_window ip now m :
  opens_window ip now m →
  rateLimit ip now m = (Next, <[client_identifier ip := fresh_record now]> m).
Proof.
  unfold opens_window. intros Hopen.
  destruct (m !! client_identifier ip) as [record |] eqn:Hrec.
  - by eapply rateLimit_expired.
  - by apply rateLimit_first_seen.
Qed.

(** C7.  A client whose call at [t0] opens a window and who calls 100 more
    times before the window ends ([times] are the 99 calls that follow, in
    any order of arrival times, [t101] the last one) is let through 100
    times and then answered TooManyRequests; whatever call comes after the
    window has ended is let through and starts a record afresh. *)
Theorem rateLimit_hundred_then_reject ip t0 times t101 tlate m :
  opens_window ip t0 m →
  length times = 99%nat →
  Forall (λ t, t ≤ t0 + RATE_LIMIT_WINDOW) times →
  t101 ≤ t0 + RATE_LIMIT_WINDOW →
  tlate > t0 + RATE_LIMIT_WINDOW →
  (admit_all ip (t0 :: times ++ [t101]) m).1
  = replicate 100 Next ++ [TooManyRequests]
  ∧ rateLimit ip tlate (admit_all ip (t0 :: times ++ [t101]) m).2
    = (Next,
       <[client_identifier ip := fresh_record tlate]>
         (admit_all ip (t0 :: times ++ [t101]) m).2).
Proof.
  intros Hopen Hlen Hin H101 Hlate.
  cbn [admit_all]. rewrite (rateLimit_opens_window _ _ _ Hopen).
  rewrite admit_all_app.
  rewrite (admit_all_within ip times _ 1 (t0 + RATE_LIMIT_WINDOW));
    [| by rewrite lookup_insert_eq | done
     | rewrite Hlen; unfold RATE_LIMIT_MAX_REQUESTS; lia ].
  rewrite Hlen, insert_insert_eq. cbn [fst snd admit_all].
  rewrite (rateLimit_full ip t101 _ 100 (t0 + RATE_LIMIT_WINDOW));
    [| by rewrite lookup_insert_eq | done | unfold RATE_LIMIT_MAX_REQUESTS; lia ].
  cbn [fst snd]. split; [done |].
  eapply rateLimit_expired; [by rewrite lookup_insert_eq | simpl; lia].
Qed.

Lemma rateLimit_hundred_then_reject_witness :
  (admit_all (Some "203.0.113.7"%string) (0 :: replicate 99 5 ++ [10]) ∅).1
  = replicate 100 Next ++ [TooManyRequests]
  ∧ rateLimit (Some "203.0.113.7"%string) 60001
      (admit_all (Some "203.0.113.7"%string) (0 :: replicate 99 5 ++ [10]) ∅).2
    = (Next,
       <[client_identifier (Some "203.0.113.7"%string) := fresh_record 60001]>
         (admit_all (Some "203.0.113.7"%string)
                    (0 :: replicate 99 5 ++ [10]) ∅).2).
Proof.
  apply (rateLimit_hundred_then_reject
           (Some "203.0.113.7"%string) 0 (replicate 99 5) 10 60001 ∅).
  - exact I.
  - reflexivity.
  - apply Forall_replicate. unfold RATE_LIMIT_WINDOW. lia.
  - unfold RATE_LIMIT_WINDOW. lia.
  - unfold RATE_LIMIT_WINDOW. lia.
Defined.

(** ** Values *)

(** The guard [!v || typeof v !== 'string'] lets exactly the non-empty
    strings through. *)
Lemma non_empty_string_guard v :
  negb (truthy v) || negb (is_string v) = false
  ↔ ∃ s, v = JStr s ∧ s ≠ ""%string.
Proof.
  split.
  - destruct v as [| | b | n | s | |]; simpl;
      rewrite ?orb_true_r; try done.
    destruct (String.eqb_spec s ""); [done |]. eauto.
  - intros (s & -> & Hne). simpl. by destruct (String.eqb_spec s "").
Qed.

Lemma non_empty_string_passes s :
  s ≠ ""%string → negb (truthy (JStr s)) || negb (is_string (JStr s)) = false.
Proof. intros. apply non_empty_string_guard. eauto. Qed.

(** ** Invariants of the reachable states *)

(** An invariant that holds initially and is kept by every request and
    every timer holds in all reachable states. *)
Lemma reachable_invariant (J : option string) (P : state → Prop) :
  P initial →
  (∀ st st', P st → step J st st' → P st') →
  ∀ st, reachable J st → P st.
Proof.
  intros Hinit Hstep. unfold reachable.
  apply (rtc_ind_r (λ st, P st)); eauto.
Qed.

Ltac handler_cases :=
  repeat (simpl in *; case_match; simplify_eq/=; try done).

(** Only the journalist route writes the journalist key. *)
Lemma handle_journalistPublicKey J r env st :
  journalistPublicKey (handle J r env st).2 = journalistPublicKey st
  ∨ ∃ k, k ≠ ""%string ∧ journalistPublicKey (handle J r env st).2 = Some k.
Proof.
  destruct r; simpl.
  - unfold registerUser. handler_cases; auto.
  - unfold registerJournalist.
    destruct (key_truthy _ && _); [by left |].
    destruct (negb (truthy publicKey) || negb (is_string publicKey)) eqn:Hpk;
      [by left |].
    apply non_empty_string_guard in Hpk as (pk & -> & Hne).
    right. by exists pk.
  - unfold sendMessage. handler_cases; auto.
  - unfold sendChunk, write_chunk, ensure_chunk_set. handler_cases; auto.
  - unfold getMessages. handler_cases; auto.
  - unfold nukeUser. handler_cases; auto.
  - by left.
Qed.

Lemma step_journalistPublicKey J st st' :
  step J st st' →
  journalistPublicKey st' = journalistPublicKey st
  ∨ ∃ k, k ≠ ""%string ∧ journalistPublicKey st' = Some k.
Proof.
  intros [e Hfires]. destruct Hfires as [ip now r env st | | |]; try by left.
  unfold serve. destruct (rateLimit _ _ _) as [[] m]; simpl; [| by left].
  apply (handle_journalistPublicKey J r env (set_rateLimitMap m st)).
Qed.

(** The stored journalist key is never the empty string. *)
Lemma reachable_key_truthy J st :
  reachable J st → ∀ k, journalistPublicKey st = Some k → k ≠ ""%string.
Proof.
  revert st.
  apply (reachable_invariant J
           (λ st, ∀ k, journalistPublicKey st = Some k → k ≠ ""%string));
    [done |].
  intros st st' IH Hstep k Hk.
  destruct (step_journalistPublicKey J st st' Hstep) as [Hsame | (k' & Hne & Hk')].
  - apply IH. congruence.
  - congruence.
Qed.

(** ** Journalist registration *)

(** C6.  While no journalist key is stored, a registration with a non-empty
    string as public key succeeds whatever secret comes with it.  Once a key
    is stored, a registration whose secret is not strictly equal to
    [process.env.JOURNALIST_SECRET] is answered 403 Unauthorized and leaves
    the state, and with it the stored key, as it was. *)
Theorem registerJournalist_first_then_secret
    J st0 publicKey0 secret0 st publicKey secret k :
  journalistPublicKey st0 = None →
  publicKey0 ≠ ""%string →
  reachable J st →
  journalistPublicKey st = Some k →
  strict_eq_env secret J = false →
  registerJournalist J (JStr publicKey0) secret0 st0
  = (Success, set_journalistPublicKey (Some publicKey0) st0)
  ∧ registerJournalist J publicKey secret st = (Error 403 "Unauthorized", st)
  ∧ journalistPublicKey (registerJournalist J publicKey secret st).2 = Some k.
Proof.
  intros Hnone Hne0 Hreach Hk Hsecret. split.
  - unfold registerJournalist. rewrite Hnone. simpl.
    by destruct (String.eqb_spec publicKey0 "").
  - pose proof (reachable_key_truthy J st Hreach k Hk) as Hne.
    unfold registerJournalist. rewrite Hk, Hsecret. simpl.
    destruct (String.eqb_spec k ""); [done |]. by simpl.
Qed.

Lemma registerJournalist_first_then_secret_witness :
  registerJournalist (Some "s3cret"%string) (JStr "PUB1") (JStr "") initial
  = (Success, set_journalistPublicKey (Some "PUB1"%string) initial)
  ∧ registerJournalist (Some "s3cret"%string) (JStr "PUB2") (JStr "guess")
      (after_first_journalist (Some "s3cret"%string))
    = (Error 403 "Unauthorized", after_first_journalist (Some "s3cret"%string))
  ∧ journalistPublicKey
      (registerJournalist (Some "s3cret"%string) (JStr "PUB2") (JStr "guess")
         (after_first_journalist (Some "s3cret"%string))).2
    = Some "PUB1"%string.
Proof.
  apply (registerJournalist_first_then_secret
           (Some "s3cret"%string) initial "PUB1" (JStr "")
           (after_first_journalist (Some "s3cret"%string))
           (JStr "PUB2") (JStr "guess") "PUB1").
  - reflexivity.
  - discriminate.
  - apply rtc_once. eexists. apply fires_request.
  - reflexivity.
  - reflexivity.
Defined.

(** ** The message store *)

Section Store.
Implicit Types (msgs : list Message.t) (hash : string).

(** The backward splice loop removes exactly the messages of the sender
    among the first [n] and leaves the rest in place. *)
Lemma nuke_loop_prefix hash n : ∀ msgs,
  (n ≤ length msgs)%nat →
  nuke_loop n hash msgs
  = List.filter (λ m, negb (String.eqb (Message.from m) hash)) (take n msgs)
    ++ drop n msgs.
Proof.
  induction n as [| i IH]; intros msgs Hlen; [done |].
  destruct (lookup_lt_is_Some_2 msgs i) as [m Hm]; [lia |].
  cbn [nuke_loop]. rewrite Hm.
  rewrite (take_S_r _ _ _ Hm), List.filter_app. cbn [List.filter].
  destruct (String.eqb (Message.from m) hash) eqn:Hfrom; cbn [negb].
  - rewrite IH by (rewrite length_delete; [lia | eauto]).
    rewrite delete_take_drop.
    assert (length (take i msgs) = i) as Hi by (rewrite length_take; lia).
    rewrite (take_app_length' _ _ _ (eq_sym Hi)).
    rewrite (drop_app_length' _ _ _ (eq_sym Hi)).
    by rewrite app_nil_r.
  - rewrite IH by lia. rewrite (drop_S _ _ _ Hm).
    by rewrite <- app_assoc.
Qed.

Lemma nuke_loop_filter hash msgs :
  nuke_loop (length msgs) hash msgs
  = List.filter (λ m, negb (String.eqb (Message.from m) hash)) msgs.
Proof.
  rewrite nuke_loop_prefix by done.
  by rewrite firstn_all, drop_all, app_nil_r.
Qed.

Lemma nukeUser_valid (hash : json) st :
  validateHash hash = true →
  nukeUser hash st
  = (Success,
     set_fileChunks (drop_chunk_sets (str_of hash) (fileChunks st))
       (set_users (remove_user (str_of hash) (users st))
          (set_messages
             (List.filter
                (λ m, negb (String.eqb (Message.from m) (str_of hash)))
                (messages st)) st))).
Proof.
  intros Hvalid. unfold nukeUser. rewrite Hvalid. simpl.
  by rewrite nuke_loop_filter.
Qed.

Lemma nukeUser_invalid (hash : json) st :
  validateHash hash = false →
  nukeUser hash st = (Error 400 "Invalid user hash", st).
Proof. intros Hinvalid. unfold nukeUser. by rewrite Hinvalid. Qed.
End Store.

Lemma filter_not_from hash (msgs : list Message.t) :
  Forall (λ m, Message.from m ≠ hash)
         (List.filter (λ m, negb (String.eqb (Message.from m) hash)) msgs).
Proof.
  apply List.Forall_forall. intros m Hm.
  apply List.filter_In in Hm as [_ Hkeep].
  by destruct (String.eqb_spec (Message.from m) hash).
Qed.

Lemma Forall_filter_keeps {A} (P : A → Prop) (f : A → bool) (l : list A) :
  Forall P l → Forall P (List.filter f l).
Proof.
  rewrite !List.Forall_forall. intros HP x Hx. apply HP.
  apply List.filter_In in Hx. tauto.
Qed.

(** C8.  After the nuke request of a valid identifier, the messages left are
    those of the other senders, in their order and with the chunk-set
    objects they point to untouched; neither the journalist's listing nor
    the identifier's own listing holds a message sent by it. *)
Theorem nukeUser_purges_sender (hash : json) (userType : string) (q : json) st :
  validateHash hash = true →
  userType ≠ "journalist"%string →
  ∃ st' forJournalist forUser,
    nukeUser hash st = (Success, st')
    ∧ getMessages "journalist" q st' = (Messages forJournalist, st')
    ∧ getMessages userType hash st' = (Messages forUser, st')
    ∧ Forall (λ m, Message.from m ≠ str_of hash) forJournalist
    ∧ Forall (λ m, Message.from m ≠ str_of hash) forUser
    ∧ forJournalist
      = List.filter (λ m, negb (String.eqb (Message.from m) (str_of hash)))
                    (messages st)
    ∧ heap st' = heap st.
Proof.
  intros Hvalid Hut. rewrite (nukeUser_valid hash st Hvalid).
  eexists _, _, _. split; [reflexivity |].
  unfold getMessages. simpl.
  destruct (String.eqb_spec userType "journalist"); [done |].
  rewrite Hvalid. simpl.
  repeat split; auto using filter_not_from, Forall_filter_keeps.
Qed.

Lemma nukeUser_purges_sender_witness :
  ∃ st' forJournalist forUser,
    nukeUser (JStr sample_hash) sample_store = (Success, st')
    ∧ getMessages "journalist" JUndef st' = (Messages forJournalist, st')
    ∧ getMessages "user" (JStr sample_hash) st' = (Messages forUser, st')
    ∧ Forall (λ m, Message.from m ≠ str_of (JStr sample_hash)) forJournalist
    ∧ Forall (λ m, Message.from m ≠ str_of (JStr sample_hash)) forUser
    ∧ forJournalist
      = List.filter
          (λ m, negb (String.eqb (Message.from m) (str_of (JStr sample_hash))))
          (messages sample_store)
    ∧ heap st' = heap sample_store.
Proof.
  apply (nukeUser_purges_sender (JStr sample_hash) "user" JUndef sample_store).
  - reflexivity.
  - discriminate.
Defined.

(** Messages are only ever added at the end of the array. *)
Lemma sendMessage_appends body env st :
  ∃ new, messages (sendMessage body env st).2 = messages st ++ new.
Proof.
  unfold sendMessage.
  repeat case_match; simpl; eauto; by exists []; rewrite app_nil_r.
Qed.

Lemma sendChunk_appends body env st :
  ∃ new, messages (sendChunk body env st).2 = messages st ++ new.
Proof.
  unfold sendChunk, write_chunk, ensure_chunk_set.
  repeat case_match; simpl; eauto; by exists []; rewrite app_nil_r.
Qed.

(** C9.  A request for the journalist's listing that the rate limiter lets
    through is answered with the whole message array, in the order of
    arrival (new messages are appended at the end), whatever else the
    request carries: nothing but the path segment is looked at. *)
Theorem getMessages_journalist_unauthenticated J ip now env (hash : json) st :
  (rateLimit ip now (rateLimitMap st)).1 = Next →
  (serve J ip now (GetMessages "journalist" hash) env st).1
  = Messages (messages st)
  ∧ messages (serve J ip now (GetMessages "journalist" hash) env st).2
    = messages st
  ∧ (∀ body env', ∃ new,
        messages (sendMessage body env' st).2 = messages st ++ new)
  ∧ (∀ body env', ∃ new,
        messages (sendChunk body env' st).2 = messages st ++ new).
Proof.
  intros Hadmit. unfold serve.
  destruct (rateLimit ip now (rateLimitMap st)) as [decision m].
  simpl in Hadmit. subst decision. simpl.
  auto using sendMessage_appends, sendChunk_appends.
Qed.

Lemma getMessages_journalist_unauthenticated_witness :
  length (messages sample_store) = 3%nat
  ∧ (serve None sample_ip 0 (GetMessages "journalist" JUndef) sample_env
           sample_store).1
    = Messages (messages sample_store)
  ∧ messages (serve None sample_ip 0 (GetMessages "journalist" JUndef)
                    sample_env sample_store).2
    = messages sample_store
  ∧ (∀ body env', ∃ new,
        messages (sendMessage body env' sample_store).2
        = messages sample_store ++ new)
  ∧ (∀ body env', ∃ new,
        messages (sendChunk body env' sample_store).2
        = messages sample_store ++ new).
Proof.
  split; [reflexivity |].
  apply (getMessages_journalist_unauthenticated
           None sample_ip 0 sample_env JUndef sample_store).
  reflexivity.
Defined.

(** ** Senders that are not identifiers *)

Lemma sendMessage_accepted from body env st :
  MessageBody.from body = JStr from →
  from ≠ ""%string →
  validateMessageData (MessageBody.encryptedData body) = true →
  Z.of_nat (length (messages st)) < MAX_MESSAGES →
  ∃ msg,
    sendMessage body env st
    = (Sent (Message.id msg), set_messages (messages st ++ [msg]) st)
    ∧ Message.from msg = from
    ∧ Message.encryptedData msg = MessageBody.encryptedData body.
Proof.
  intros Hfrom Hne Hdata Hroom. unfold sendMessage.
  rewrite Hfrom, (non_empty_string_passes from Hne), Hdata. simpl.
  destruct (Z.geb_spec (Z.of_nat (length (messages st))) MAX_MESSAGES);
    [lia |].
  eexists (Message.mk _ _ _ _ _ _ _ _). split; [reflexivity |]. done.
Qed.

Lemma validateHash_str_of h : validateHash h = true → h = JStr (str_of h).
Proof.
  destruct h; unfold validateHash; simpl; rewrite ?andb_false_r; simpl; done.
Qed.

(** C10.  The send route takes any non-empty string as sender: with valid
    data and room in the store the message is appended under that sender.
    When the sender is not a 32-character lowercase-hex identifier, the
    nuke route and the per-user listing answer 400 to it, and no nuke
    request whatever removes the message. *)
Theorem sendMessage_sender_not_validated from body env userType st :
  MessageBody.from body = JStr from →
  from ≠ ""%string →
  validateMessageData (MessageBody.encryptedData body) = true →
  Z.of_nat (length (messages st)) < MAX_MESSAGES →
  userType ≠ "journalist"%string →
  ∃ msg st',
    sendMessage body env st = (Sent (Message.id msg), st')
    ∧ messages st' = messages st ++ [msg]
    ∧ Message.from msg = from
    ∧ (validateHash (JStr from) = false →
       nukeUser (JStr from) st' = (Error 400 "Invalid user hash", st')
       ∧ getMessages userType (JStr from) st'
         = (Error 400 "Invalid user hash", st')
       ∧ ∀ hash, msg ∈ messages (nukeUser hash st').2).
Proof.
  intros Hfrom Hne Hdata Hroom Hut.
  destruct (sendMessage_accepted from body env st Hfrom Hne Hdata Hroom)
    as (msg & Hsend & Hmsg & _).
  eexists msg, _. split; [exact Hsend |]. simpl.
  split; [done |]. split; [done |]. intros Hinvalid.
  split; [by apply nukeUser_invalid |]. split.
  - unfold getMessages. destruct (String.eqb_spec userType "journalist"); [done |].
    by rewrite Hinvalid.
  - intros hash. destruct (validateHash hash) eqn:Hhash.
    + rewrite (nukeUser_valid _ _ Hhash). simpl.
      apply list_elem_of_In, List.filter_In. split.
      * apply list_elem_of_In. set_solver.
      * destruct (String.eqb_spec (Message.from msg) (str_of hash)) as [Heq |];
          [| done].
        rewrite (validateHash_str_of hash Hhash) in Hhash.
        rewrite <- Heq, Hmsg in Hhash. congruence.
    + rewrite (nukeUser_invalid _ _ Hhash). simpl. set_solver.
Qed.

Lemma sendMessage_sender_not_validated_witness :
  ∃ msg st',
    sendMessage (text_from "alice" JUndef) sample_env initial
    = (Sent (Message.id msg), st')
    ∧ messages st' = messages initial ++ [msg]
    ∧ Message.from msg = "alice"%string
    ∧ (validateHash (JStr "alice") = false →
       nukeUser (JStr "alice") st' = (Error 400 "Invalid user hash", st')
       ∧ getMessages "user" (JStr "alice") st'
         = (Error 400 "Invalid user hash", st')
       ∧ ∀ hash, msg ∈ messages (nukeUser hash st').2).
Proof.
  apply (sendMessage_sender_not_validated
           "alice" (text_from "alice" JUndef) sample_env "user" initial).
  - reflexivity.
  - discriminate.
  - reflexivity.
  - reflexivity.
  - discriminate.
Defined.

(** ** The chunk reassembler *)

Section Reassembler.
Implicit Types (ci tc : jsnum) (cs : ChunkSet.t) (l : loc).

Lemma num_of_nat_inj (a b : nat) : num_of_nat a = num_of_nat b → a = b.
Proof.
  unfold num_of_nat, num_of_Z. intros [= H%(inj Z.of_nat)]. done.
Qed.

Lemma chunk_guards_pass from data fileName :
  from ≠ ""%string → valid_chunk_data data → valid_file_name fileName →
  negb (truthy (JStr from)) || negb (is_string (JStr from)) = false
  ∧ negb (truthy (JStr data)) || negb (is_string (JStr data))
    || (strlen (str_of (JStr data)) >? MAX_CHUNK_SIZE) = false
  ∧ negb (truthy (JStr fileName)) || negb (is_string (JStr fileName))
    || (strlen (str_of (JStr fileName)) >? 255) = false.
Proof.
  intros Hfrom [Hdata Hsize] [Hname Hlen].
  rewrite !non_empty_string_passes by done. simpl.
  destruct (Z.gtb_spec (strlen data) MAX_CHUNK_SIZE); [lia |].
  by destruct (Z.gtb_spec (strlen fileName) 255); [lia |].
Qed.

(** A valid chunk for a key that already has a chunk set: the chunk is
    written into the set, and a file message is pushed exactly when the
    number of stored indices equals the [totalChunks] of this request. *)
Lemma sendChunk_valid from fileName ci tc data ft fs env st :
  from ≠ ""%string → valid_file_name fileName → valid_chunk_data data →
  sendChunk (ChunkBody.mk (JStr from) (JNum ci) (JNum tc) (JStr data)
                          (JStr fileName) ft fs) env st
  = write_chunk (chunk_key from fileName)
      (ChunkBody.mk (JStr from) (JNum ci) (JNum tc) (JStr data)
                    (JStr fileName) ft fs) env
      (ensure_chunk_set (chunk_key from fileName)
         (ChunkBody.mk (JStr from) (JNum ci) (JNum tc) (JStr data)
                       (JStr fileName) ft fs) st).
Proof.
  intros Hfrom Hname Hdata.
  destruct (chunk_guards_pass from data fileName) as (G1 & G2 & G3);
    [done .. |].
  unfold sendChunk. cbn [ChunkBody.from ChunkBody.chunkIndex
    ChunkBody.totalChunks ChunkBody.chunkData ChunkBody.fileName].
  by rewrite G1, G2, G3.
Qed.

(** A valid chunk for a key that already has a chunk set: the chunk is
    written into the set, and a file message is pushed exactly when the
    number of stored indices equals the [totalChunks] of this request. *)
Lemma sendChunk_stores from fileName ci tc data ft fs env st l cs :
  from ≠ ""%string → valid_file_name fileName → valid_chunk_data data →
  fileChunks st !! chunk_key from fileName = Some l →
  heap st !! l = Some cs →
  sendChunk (ChunkBody.mk (JStr from) (JNum ci) (JNum tc) (JStr data)
                          (JStr fileName) ft fs) env st
  = let cs' := ChunkSet.store_chunk ci data (dateNow env 0) cs in
    let st2 := set_heap (<[l := cs']> (heap st)) st in
    (ChunkProgress (size (ChunkSet.chunks cs')) tc,
     if bool_decide (num_of_nat (size (ChunkSet.chunks cs')) = tc)
     then set_pendingCleanups
            (pendingCleanups st2 ++ [chunk_key from fileName])
            (set_messages (messages st2 ++ [file_message from l env]) st2)
     else st2).
Proof.
  intros Hfrom Hname Hdata Hkey Hheap.
  rewrite sendChunk_valid by done.
  unfold ensure_chunk_set, write_chunk, get_fileChunks.
  rewrite Hkey. by rewrite Hkey, Hheap.
Qed.

(** A valid chunk for a key without a chunk set, when the key is not the
    name of an inherited property: the set is created, then written. *)
Lemma sendChunk_creates from fileName ci tc data ft fs env st :
  from ≠ ""%string → valid_file_name fileName → valid_chunk_data data →
  get_fileChunks (chunk_key from fileName) (fileChunks st) = Missing →
  sendChunk (ChunkBody.mk (JStr from) (JNum ci) (JNum tc) (JStr data)
                          (JStr fileName) ft fs) env st
  = sendChunk (ChunkBody.mk (JStr from) (JNum ci) (JNum tc) (JStr data)
                            (JStr fileName) ft fs) env
      (set_fileChunks
         (<[chunk_key from fileName := length (heap st)]> (fileChunks st))
         (set_heap (heap st ++ [ChunkSet.mk from fileName ft fs tc ∅ None])
                   st)).
Proof.
  intros Hfrom Hname Hdata Hmissing.
  rewrite !sendChunk_valid by done. f_equal.
  unfold ensure_chunk_set at 2. unfold get_fileChunks at 1.
  cbn [fileChunks set_fileChunks]. rewrite lookup_insert_eq.
  unfold ensure_chunk_set. by rewrite Hmissing.
Qed.

(** A valid chunk whose key names a property that [fileChunks] inherits:
    the handler throws and nothing is stored. *)
Lemma sendChunk_inherited from fileName ci tc data ft fs env st :
  from ≠ ""%string → valid_file_name fileName → valid_chunk_data data →
  get_fileChunks (chunk_key from fileName) (fileChunks st) = Inherited →
  sendChunk (ChunkBody.mk (JStr from) (JNum ci) (JNum tc) (JStr data)
                          (JStr fileName) ft fs) env st
  = (Threw, st).
Proof.
  intros Hfrom Hname Hdata Hinh.
  rewrite sendChunk_valid by done.
  unfold ensure_chunk_set, write_chunk. by rewrite Hinh, Hinh.
Qed.

Lemma submit_all_cons body env rest st :
  submit_all ((body, env) :: rest) st
  = ((sendChunk body env st).1 :: (submit_all rest (sendChunk body env st).2).1,
     (submit_all rest (sendChunk body env st).2).2).
Proof.
  cbn [submit_all]. destruct (sendChunk body env st) as [r st1].
  cbn [fst snd]. by destruct (submit_all rest st1).
Qed.

Section Transfer.
Context (from fileName : string) (N : nat) (data : nat → string)
        (ft fs : json) (env_of : nat → environment).
Context (Hfrom : from ≠ ""%string) (Hname : valid_file_name fileName).

Let key := chunk_key from fileName.
Let requests := transfer from fileName N data ft fs env_of.

(** The rest of a transfer whose chunk set is already there: each
    request adds one index; the one that brings the count to [N] pushes
    the file message, and none before it does. *)
Lemma submit_rest l : ∀ rest st cs,
  (∀ i, i ∈ rest → valid_chunk_data (data i)) →
  fileChunks st !! key = Some l →
  heap st !! l = Some cs →
  NoDup rest →
  (∀ i, i ∈ rest → ChunkSet.chunks cs !! num_of_nat i = None) →
  (size (ChunkSet.chunks cs) + length rest = N)%nat →
  (submit_all (requests rest) st).1
  = (λ k, ChunkProgress k (num_of_nat N))
      <$> seq (S (size (ChunkSet.chunks cs))) (length rest)
  ∧ (∀ k, (k < length rest)%nat →
       messages (submit_all (take k (requests rest)) st).2 = messages st)
  ∧ (∀ i, list.last rest = Some i →
       messages (submit_all (requests rest) st).2
       = messages st ++ [file_message from l (env_of i)]).
Proof.
  induction rest as [| i rest IH]; intros st cs Hdata Hkey Hheap Hnodup
    Hfresh Hcount.
  { repeat split; [intros k Hk; simpl in Hk; lia | done]. }
  apply NoDup_cons in Hnodup as [Hi Hnodup].
  assert (size (<[num_of_nat i := data i]> (ChunkSet.chunks cs))
          = S (size (ChunkSet.chunks cs))) as Hsize.
  { apply map_size_insert_None, Hfresh. by left. }
  pose proof (lookup_lt_Some _ _ _ Hheap) as Hl.
  pose proof (sendChunk_stores from fileName (num_of_nat i) (num_of_nat N)
                (data i) ft fs (env_of i) st l cs Hfrom Hname
                (Hdata i ltac:(left)) Hkey Hheap) as Hstep.
  change (ChunkBody.mk _ _ _ _ _ _ _)
    with (chunk_of from fileName N data ft fs i) in Hstep.
  cbn zeta in Hstep.
  cbn [ChunkSet.store_chunk ChunkSet.chunks] in Hstep.
  rewrite Hsize in Hstep.
  unfold requests, transfer in *. rewrite fmap_cons, submit_all_cons.
  destruct rest as [| j rest].
  - (* the last chunk *)
    cbn [length] in Hcount.
    rewrite bool_decide_eq_true_2 in Hstep by (f_equal; lia).
    rewrite Hstep. cbn [fmap list_fmap submit_all fst snd].
    repeat split.
    + intros k Hk. cbn [length] in Hk. by replace k with 0%nat by lia.
    + by intros ? [= <-].
  - (* more to come *)
    cbn [length] in Hcount.
    rewrite bool_decide_eq_false_2 in Hstep
      by (intros ?%num_of_nat_inj; lia).
    rewrite Hstep. cbn [fst snd].
    set (cs' := ChunkSet.store_chunk (num_of_nat i) (data i)
                  (dateNow (env_of i) 0) cs) in *.
    set (st2 := set_heap (<[l := cs']> (heap st)) st) in *.
    destruct (IH st2 cs') as (Hresp & Hbefore & Hlast).
    + intros ? ?. apply Hdata. by right.
    + done.
    + by apply list_lookup_insert_eq.
    + done.
    + intros i' Hi'. cbn [cs' ChunkSet.store_chunk ChunkSet.chunks].
      rewrite lookup_insert_ne.
      * apply Hfresh. by right.
      * intros ->%num_of_nat_inj. done.
    + cbn [cs' ChunkSet.store_chunk ChunkSet.chunks].
      rewrite Hsize. cbn [length]. lia.
    + cbn [cs' ChunkSet.store_chunk ChunkSet.chunks] in Hresp.
      rewrite Hsize in Hresp.
      repeat split.
      * rewrite Hresp. done.
      * intros [| k] Hk; [done |].
        rewrite fmap_cons, firstn_cons, submit_all_cons, Hstep.
        cbn [fst snd].
        apply (Hbefore k). cbn [length] in *. lia.
      * intros i' Hi'. by apply Hlast.
Qed.

(** The first request of a transfer creates the chunk set. *)
Lemma submit_all_creates i rest st :
  valid_chunk_data (data i) →
  get_fileChunks key (fileChunks st) = Missing →
  submit_all ((chunk_of from fileName N data ft fs i, env_of i) :: rest) st
  = submit_all
      ((chunk_of from fileName N data ft fs i, env_of i) :: rest)
      (set_fileChunks (<[key := length (heap st)]> (fileChunks st))
         (set_heap
            (heap st
             ++ [ChunkSet.mk from fileName ft fs (num_of_nat N) ∅ None])
            st)).
Proof.
  intros Hdata Hmissing. rewrite !submit_all_cons. unfold chunk_of.
  by rewrite <- sendChunk_creates.
Qed.

(** A whole transfer for a key that has no chunk set and does not name
    an inherited property: the [k]-th request answers [k] of [N]
    received, no message is pushed before the last request, and the
    last request pushes one file message that points to the chunk
    set. *)
Lemma transfer_completes_once order st :
  (1 ≤ N)%nat →
  order ≡ₚ seq 0 N →
  (∀ i, (i < N)%nat → valid_chunk_data (data i)) →
  get_fileChunks key (fileChunks st) = Missing →
  (submit_all (requests order) st).1
  = (λ k, ChunkProgress k (num_of_nat N)) <$> seq 1 N
  ∧ (∀ k, (k < N)%nat →
       messages (submit_all (take k (requests order)) st).2 = messages st)
  ∧ ∃ i, list.last order = Some i
         ∧ messages (submit_all (requests order) st).2
           = messages st
             ++ [file_message from (length (heap st)) (env_of i)].
Proof.
  intros HN Hperm Hdata Hmissing.
  assert (length order = N) as Hlen by (by rewrite Hperm, length_seq).
  assert (NoDup order) as Hnodup by (rewrite Hperm; apply NoDup_seq).
  assert (∀ i, i ∈ order → valid_chunk_data (data i)) as Hvalid.
  { intros i Hi. apply Hdata. rewrite Hperm in Hi.
    apply elem_of_seq in Hi. lia. }
  destruct order as [| i0 rest]; [simpl in Hlen; lia |].
  set (st1 := set_fileChunks (<[key := length (heap st)]> (fileChunks st))
                (set_heap
                   (heap st
                    ++ [ChunkSet.mk from fileName ft fs (num_of_nat N)
                                    ∅ None])
                   st)).
  destruct (submit_rest (length (heap st)) (i0 :: rest) st1
              (ChunkSet.mk from fileName ft fs (num_of_nat N) ∅ None))
    as (Hresp & Hbefore & Hlast).
  - done.
  - cbn [st1 fileChunks set_fileChunks]. by rewrite lookup_insert_eq.
  - cbn [st1 heap set_fileChunks set_heap].
    by rewrite list_lookup_middle.
  - done.
  - done.
  - cbn [ChunkSet.chunks]. by rewrite map_size_empty.
  - cbn [ChunkSet.chunks] in Hresp. rewrite map_size_empty, Hlen in Hresp.
    unfold requests, transfer in *. rewrite fmap_cons in *.
    rewrite submit_all_creates by (done || apply Hvalid; by left).
    fold st1. split; [done |]. split.
    + intros [| k] Hk; [done |].
      rewrite firstn_cons.
      rewrite submit_all_creates by (done || apply Hvalid; by left).
      fold st1. rewrite <- firstn_cons. apply Hbefore. lia.
    + destruct (list.last (i0 :: rest)) as [i |] eqn:Hi.
      * exists i. split; [done |]. by apply Hlast.
      * by apply last_None in Hi.
Qed.
End Transfer.
End Reassembler.

(** ** Validation of the chunk metadata *)

(** C4, as stated, fails: a chunk whose index is 1.5 is accepted and creates
    a chunk set, and so is a chunk of a file declared as 2.5 chunks. *)
Lemma sendChunk_accepts_fractions :
  is_integer (num_of (ChunkBody.chunkIndex fractional_index_chunk)) = false
  ∧ (sendChunk fractional_index_chunk sample_env initial).1
    = ChunkProgress 1 (num_of_Z 1)
  ∧ chunk_set_at initial "u1_a.txt" = None
  ∧ is_Some (chunk_set_at
               (sendChunk fractional_index_chunk sample_env initial).2
               "u1_a.txt")
  ∧ is_integer (num_of (ChunkBody.totalChunks fractional_total_chunk)) = false
  ∧ (sendChunk fractional_total_chunk sample_env initial).1
    = ChunkProgress 1 (NFin (Q2Qc (5 # 2)))
  ∧ is_Some (chunk_set_at
               (sendChunk fractional_total_chunk sample_env initial).2
               "u1_b.txt").
Proof. repeat split; vm_compute; eauto. Qed.

(** C4, amended.  A chunk request whose [chunkIndex] or [totalChunks] is not
    of type number (a string, a boolean, null, an array, an object, or
    absent) is answered 400 and leaves the state as it was. *)
Theorem sendChunk_rejects_non_numbers body env st :
  is_number (ChunkBody.chunkIndex body) = false
  ∨ is_number (ChunkBody.totalChunks body) = false →
  ∃ error, sendChunk body env st = (Error 400 error, st).
Proof.
  intros Hnot. unfold sendChunk.
  destruct (negb (truthy (ChunkBody.from body))
            || negb (is_string (ChunkBody.from body))); [eauto |].
  destruct Hnot as [-> | ->]; simpl; rewrite ?orb_true_r; eauto.
Qed.

Lemma sendChunk_rejects_non_numbers_witness :
  ∃ error,
    sendChunk string_index_chunk sample_env initial = (Error 400 error, initial).
Proof.
  apply (sendChunk_rejects_non_numbers string_index_chunk sample_env initial).
  left. reflexivity.
Defined.

(** ** Completion of a transfer *)

(** A request that changes nothing in [fileChunks] for a key that names an
    inherited property: the handler throws whatever the state. *)
Lemma sendChunk_proto_key env st :
  fileChunks st !! "__proto__"%string = None →
  sendChunk proto_chunk env st = (Threw, st).
Proof.
  intros Hown.
  apply (sendChunk_inherited "_" "proto__"); try (split; [done | by vm_compute]);
    [done |].
  unfold get_fileChunks.
  change (chunk_key "_" "proto__") with "__proto__"%string. by rewrite Hown.
Qed.

(** C5 at the sender ["_"] and the file name ["proto__"], a one-chunk file:
    the request is valid for the route, no chunk set exists for the key, yet
    the handler throws; no chunk set is created and no file message is
    stored. *)
Theorem sendChunk_inherited_key_never_completes :
  chunk_set_at initial (chunk_key "_" "proto__") = None
  ∧ proto_chunk
    = chunk_of "_" "proto__" 1 (λ _, "QUJD"%string) (JStr "text/plain")
               (JNum (num_of_Z 3)) 0
  ∧ sendChunk proto_chunk sample_env initial = (Threw, initial)
  ∧ file_messages_from "_" (sendChunk proto_chunk sample_env initial).2 = [].
Proof. repeat split; by vm_compute. Qed.

(** A retransmitted chunk of a set that already holds as many indices as the
    request declares pushes one more file message. *)
Lemma sendChunk_completes_again from fileName ci data ft fs env st l cs :
  from ≠ ""%string → valid_file_name fileName → valid_chunk_data data →
  fileChunks st !! chunk_key from fileName = Some l →
  heap st !! l = Some cs →
  is_Some (ChunkSet.chunks cs !! ci) →
  ∃ st',
    sendChunk (ChunkBody.mk (JStr from) (JNum ci)
                 (JNum (num_of_nat (size (ChunkSet.chunks cs))))
                 (JStr data) (JStr fileName) ft fs) env st
    = (ChunkProgress (size (ChunkSet.chunks cs))
                     (num_of_nat (size (ChunkSet.chunks cs))), st')
    ∧ messages st' = messages st ++ [file_message from l env].
Proof.
  intros Hfrom Hname Hdata Hkey Hheap Hold.
  rewrite (sendChunk_stores from fileName _ _ _ ft fs env st l cs) by done.
  cbn zeta. cbn [ChunkSet.store_chunk ChunkSet.chunks].
  rewrite (map_size_insert_Some _ _ _ Hold).
  rewrite bool_decide_eq_true_2 by done. eauto.
Qed.

(** C2 on the three-chunk file of the example.  The third chunk completes
    the transfer and one file message is stored; the clean-up is pending and
    the chunk set is still under its key.  Chunk 1 sent once more is
    answered as 3 of 3 received and a second file message is stored. *)
Theorem retransmission_completes_again :
  (submit_all three_chunks initial).1
  = [ChunkProgress 1 (num_of_nat 3); ChunkProgress 2 (num_of_nat 3);
     ChunkProgress 3 (num_of_nat 3)]
  ∧ length (file_messages_from "u1" after_three_chunks) = 1%nat
  ∧ pendingCleanups after_three_chunks = ["u1_a.txt"%string]
  ∧ is_Some (chunk_set_at after_three_chunks "u1_a.txt")
  ∧ (sendChunk retransmitted_chunk sample_env after_three_chunks).1
    = ChunkProgress 3 (num_of_nat 3)
  ∧ length (file_messages_from "u1"
              (sendChunk retransmitted_chunk sample_env after_three_chunks).2)
    = 2%nat.
Proof. repeat split; vm_compute; eauto. Qed.

(** ** Capacity of the message store *)

Lemma spaced_succ k : spaced (S k) = spaced k + RATE_LIMIT_WINDOW + 1.
Proof. unfold spaced. lia. Qed.

Lemma flooded_spec J n :
  Z.of_nat n ≤ MAX_MESSAGES →
  reachable J (flooded J n)
  ∧ length (messages (flooded J n)) = n
  ∧ fileChunks (flooded J n) = ∅
  ∧ heap (flooded J n) = []
  ∧ opens_window sample_ip (spaced n) (rateLimitMap (flooded J n)).
Proof.
  induction n as [| k IH]; intros Hn.
  { split; [apply rtc_refl | done]. }
  destruct IH as (Hreach & Hlen & Hfc & Hheap & Hopen); [lia |].
  split.
  { eapply rtc_r; [exact Hreach |]. eexists. apply fires_request. }
  cbn [flooded]. unfold serve.
  rewrite (rateLimit_opens_window _ _ _ Hopen). cbn [handle].
  set (st1 := set_rateLimitMap _ (flooded J k)).
  destruct (sendMessage_accepted "alice" (text_from "alice" JUndef)
              sample_env st1) as (msg & -> & _); [done .. | |].
  { cbn [st1 messages set_rateLimitMap]. rewrite Hlen. lia. }
  cbn [snd st1 messages fileChunks heap rateLimitMap set_messages
       set_rateLimitMap].
  rewrite length_app, Hlen. cbn [length].
  repeat split; [lia | done | done |].
  unfold opens_window. rewrite lookup_insert_eq. cbn [fresh_record
    RateRecord.resetTime]. rewrite spaced_succ. lia.
Qed.

(** The message route refuses a message when the store is full. *)
Lemma sendMessage_full body env st :
  MAX_MESSAGES ≤ Z.of_nat (length (messages st)) →
  ∃ status error,
    sendMessage body env st = (Error status error, st).
Proof.
  intros Hfull. unfold sendMessage.
  repeat case_match; eauto.
  destruct (Z.geb_spec (Z.of_nat (length (messages st))) MAX_MESSAGES);
    [done | lia].
Qed.

(** The chunk route on a store filled by [n] messages. *)
Lemma flooded_then_chunk J n :
  Z.of_nat n ≤ MAX_MESSAGES →
  (serve J sample_ip (spaced n) (SendChunk one_chunk_file) sample_env
         (flooded J n)).1
  = ChunkProgress 1 (num_of_Z 1)
  ∧ length (messages (serve J sample_ip (spaced n) (SendChunk one_chunk_file)
                            sample_env (flooded J n)).2)
    = S n.
Proof.
  intros Hn.
  destruct (flooded_spec J n Hn) as (_ & Hlen & Hfc & Hheap & Hopen).
  unfold serve.
  rewrite (rateLimit_opens_window _ _ _ Hopen). cbn [handle].
  set (st1 := set_rateLimitMap _ (flooded J n)).
  unfold one_chunk_file, sample_chunk.
  assert (valid_file_name "a.txt" ∧ valid_chunk_data "QUJD") as [Hname Hdata]
    by (by vm_compute).
  rewrite (sendChunk_creates "u1" "a.txt"); try done; cycle 1.
  { cbn [st1 fileChunks set_rateLimitMap]. rewrite Hfc. by vm_compute. }
  rewrite (sendChunk_stores "u1" "a.txt" _ _ _ _ _ _ _ (length (heap st1))
             (ChunkSet.mk "u1" "a.txt" (JStr "text/plain")
                (JNum (num_of_Z 3)) (num_of_Z 1) ∅ None));
    try done; cycle 1.
  { cbn [fileChunks set_fileChunks]. by rewrite lookup_insert_eq. }
  { cbn [heap set_fileChunks set_heap]. by rewrite list_lookup_middle. }
  cbn zeta. cbn [ChunkSet.store_chunk ChunkSet.chunks fst snd].
  rewrite insert_empty, map_size_singleton.
  rewrite bool_decide_eq_true_2 by done.
  split; [done |].
  cbn [messages set_pendingCleanups set_messages set_heap set_fileChunks st1
       set_rateLimitMap].
  rewrite length_app, Hlen. cbn [length]. lia.
Qed.

(** C1 after 10000 messages and a one-chunk file: the store, reached by
    requests only, is full; the message route refuses, but the chunk route
    answers the one-chunk file as received and the store then holds 10001
    messages. *)
Theorem chunk_completion_ignores_capacity J :
  reachable J (full J)
  ∧ Z.of_nat (length (messages (full J))) = MAX_MESSAGES
  ∧ (∀ body env, ∃ status error,
       sendMessage body env (full J) = (Error status error, full J))
  ∧ (serve J sample_ip (spaced (Z.to_nat MAX_MESSAGES))
           (SendChunk one_chunk_file) sample_env (full J)).1
    = ChunkProgress 1 (num_of_Z 1)
  ∧ reachable J (overfull J)
  ∧ Z.of_nat (length (messages (overfull J))) = MAX_MESSAGES + 1.
Proof.
  assert (Z.of_nat (Z.to_nat MAX_MESSAGES) = MAX_MESSAGES) as Hmax
    by (apply Z2Nat.id; by vm_compute).
  unfold overfull, full.
  generalize dependent (Z.to_nat MAX_MESSAGES). intros n Hmax.
  destruct (flooded_spec J n) as (Hreach & Hlen & _); [lia |].
  destruct (flooded_then_chunk J n) as (Hresp & Hlen'); [lia |].
  split; [done |]. split; [lia |]. split.
  { intros body env. apply sendMessage_full. lia. }
  split; [done |]. split; [| rewrite Hlen'; lia].
  eapply rtc_r; [exact Hreach |]. eexists. apply fires_request.
Qed.

(** ** Bounds on the chunk indices *)

(** C3, as stated, fails: two chunks of a file declared as one chunk, sent
    at indices 5 and 7, leave a chunk set of two indices, both beyond
    [totalChunks - 1 = 0]. *)
Lemma chunk_index_unchecked :
  reachable None (after_stray_chunks None)
  ∧ ∃ cs,
      chunk_set_at (after_stray_chunks None) "u1_a.txt" = Some cs
      ∧ ChunkSet.totalChunks cs = num_of_nat 1
      ∧ size (ChunkSet.chunks cs) = 2%nat
      ∧ is_Some (ChunkSet.chunks cs !! num_of_nat 5)
      ∧ ¬ chunks_bounded cs.
Proof.
  split.
  - eapply rtc_l; [eexists; apply fires_request |].
    apply rtc_once. eexists. apply fires_request.
  - eexists. split; [by vm_compute |].
    split; [done |]. split; [by vm_compute |]. split; [by vm_compute; eauto |].
    intros [Hsize _]. vm_compute in Hsize. by apply Hsize.
Qed.

Section Bounds.
Implicit Types (fc : gmap string loc) (h : list ChunkSet.t).

Lemma key_inv_subseteq key fc fc' h :
  fc' ⊆ fc → key_inv key fc h → key_inv key fc' h.
Proof.
  intros Hsub (Hwf & Hinj & Hbound). repeat split.
  - intros k l Hk. eapply Hwf, lookup_weaken; eauto.
  - intros k1 k2 l H1 H2. eapply Hinj; eapply lookup_weaken; eauto.
  - intros l cs Hk. eapply Hbound, lookup_weaken; eauto.
Qed.

(** Writing a chunk into the set of a key [k] keeps the shape seen from
    [key], provided the chunk is in range when [k] is [key]. *)
Lemma key_inv_write key fc h k l cs ci data now :
  key_inv key fc h →
  fc !! k = Some l → h !! l = Some cs →
  (k = key →
   ∃ i t : nat,
     ci = num_of_nat i ∧ ChunkSet.totalChunks cs = num_of_nat t ∧ (i < t)%nat) →
  key_inv key fc (<[l := ChunkSet.store_chunk ci data now cs]> h).
Proof.
  intros (Hwf & Hinj & Hbound) Hk Hcs Hrange. repeat split.
  - intros k' l' Hk'. rewrite length_insert. eauto.
  - done.
  - intros l' cs' Hkey Hcs'.
    destruct (decide (l' = l)) as [-> | Hne].
    + rewrite list_lookup_insert_eq in Hcs' by eauto using lookup_lt_Some.
      injection Hcs' as <-.
      destruct (Hrange (Hinj _ _ _ Hk Hkey)) as (i & t & -> & Ht & Hi).
      destruct (Hbound l cs Hkey Hcs) as (t' & Ht' & Hall).
      assert (t' = t) as -> by (apply num_of_nat_inj; congruence).
      exists t. split; [done |]. intros q Hq.
      cbn [ChunkSet.store_chunk ChunkSet.chunks] in Hq.
      destruct (decide (q = num_of_nat i)) as [-> | Hq'].
      * by exists i.
      * rewrite lookup_insert_ne in Hq by done. auto.
    + rewrite list_lookup_insert_ne in Hcs' by done. eauto.
Qed.

(** Creating the set of a new key [k] keeps the shape seen from [key],
    provided the total is a natural number when [k] is [key]. *)
Lemma key_inv_create key fc h k fresh :
  key_inv key fc h →
  fc !! k = None →
  ChunkSet.chunks fresh = ∅ →
  (k = key → ∃ t : nat, ChunkSet.totalChunks fresh = num_of_nat t) →
  key_inv key (<[k := length h]> fc) (h ++ [fresh]).
Proof.
  intros (Hwf & Hinj & Hbound) Hk Hempty Htotal. repeat split.
  - intros k' l' [[_ <-] | [_ Hold]]%lookup_insert_Some;
      rewrite length_app; simpl; [lia |].
    apply Hwf in Hold. lia.
  - intros k1 k2 l' [[<- <-] | [Hne1 H1]]%lookup_insert_Some
                    [[<- Hl] | [Hne2 H2]]%lookup_insert_Some;
      try done.
    + apply Hwf in H2. lia.
    + apply Hwf in H1. lia.
    + eauto.
  - intros l' cs' [[Heq <-] | [_ Hold]]%lookup_insert_Some Hcs'.
    + rewrite list_lookup_middle in Hcs' by done. injection Hcs' as <-.
      destruct (Htotal Heq) as [t Ht].
      exists t. split; [done |]. intros q [x Hq].
      by rewrite Hempty, lookup_empty in Hq.
    + rewrite lookup_app_l in Hcs' by eauto. eauto.
Qed.

(** Counting: natural-number indices below [t] are at most [t]. *)
Lemma indices_below_total_size cs (t : nat) :
  (∀ q, is_Some (ChunkSet.chunks cs !! q) →
        ∃ i : nat, q = num_of_nat i ∧ (i < t)%nat) →
  (size (ChunkSet.chunks cs) ≤ t)%nat.
Proof.
  intros Hall. rewrite <- size_dom.
  assert (dom (ChunkSet.chunks cs)
          ⊆ (list_to_set (num_of_nat <$> seq 0 t) : gset jsnum)) as Hsub.
  { intros q Hq. apply elem_of_dom in Hq.
    destruct (Hall q Hq) as (i & -> & Hi).
    apply elem_of_list_to_set, list_elem_of_fmap.
    exists i. split; [done |]. apply elem_of_seq. lia. }
  apply subseteq_size in Hsub. rewrite size_list_to_set in Hsub.
  - by rewrite length_fmap, length_seq in Hsub.
  - apply NoDup_fmap_2_strong; [| apply NoDup_seq].
    intros ? ? _ _. apply num_of_nat_inj.
Qed.

Lemma indices_below_total_bounded cs :
  indices_below_total cs → chunks_bounded cs.
Proof.
  intros (t & Ht & Hall). unfold chunks_bounded. rewrite Ht. split.
  - unfold num_of_nat, num_of_Z. cbn [num_le].
    apply (proj1 (Z2Qc_inj_le _ _)).
    pose proof (indices_below_total_size cs t Hall). lia.
  - intros q Hq. destruct (Hall q Hq) as (i & -> & Hi).
    unfold num_of_nat, num_of_Z. cbn [num_le num_pred].
    rewrite <- Z2Qc_inj_1, <- Z2Qc_inj_sub.
    split; apply (proj1 (Z2Qc_inj_le _ _)); lia.
Qed.
End Bounds.

Section InRange.
Context (J : option string).

Lemma get_fileChunks_Own key (fc : gmap string loc) l :
  get_fileChunks key fc = Own l ↔ fc !! key = Some l.
Proof.
  unfold get_fileChunks. destruct (fc !! key); [naive_solver |].
  case_bool_decide; naive_solver.
Qed.

Lemma get_fileChunks_not_own key (fc : gmap string loc) :
  get_fileChunks key fc = Missing ∨ get_fileChunks key fc = Inherited →
  fc !! key = None.
Proof.
  unfold get_fileChunks. destruct (fc !! key); [| done].
  by intros [? | ?].
Qed.

(** Either one of the four guards of the chunk route answers 400, or the
    body is made of a non-empty sender, two numbers, a payload and a file
    name within their limits. *)
Lemma sendChunk_cases body env st :
  (∃ error, sendChunk body env st = (Error 400 error, st))
  ∨ ∃ from ci tc data fileName,
      body = ChunkBody.mk (JStr from) (JNum ci) (JNum tc) (JStr data)
               (JStr fileName) (ChunkBody.fileType body)
               (ChunkBody.fileSize body)
      ∧ from ≠ ""%string
      ∧ valid_file_name fileName
      ∧ valid_chunk_data data.
Proof.
  unfold sendChunk. destruct body as [from ci tc data fileName ft fs].
  cbn [ChunkBody.from ChunkBody.chunkIndex ChunkBody.totalChunks
       ChunkBody.chunkData ChunkBody.fileName ChunkBody.fileType
       ChunkBody.fileSize].
  destruct (negb (truthy from) || negb (is_string from)) eqn:G1; [eauto |].
  destruct (negb (is_number ci) || negb (is_number tc)) eqn:G2; [eauto |].
  destruct (negb (truthy data) || negb (is_string data)
            || (strlen (str_of data) >? MAX_CHUNK_SIZE)) eqn:G3; [eauto |].
  destruct (negb (truthy fileName) || negb (is_string fileName)
            || (strlen (str_of fileName) >? 255)) eqn:G4; [eauto |].
  right.
  apply non_empty_string_guard in G1 as (from' & -> & Hfrom).
  apply orb_false_elim in G2 as [Hci Htc].
  apply orb_false_elim in G3 as [G3 Hsize].
  apply orb_false_elim in G4 as [G4 Hlen].
  apply non_empty_string_guard in G3 as (data' & -> & Hdata).
  apply non_empty_string_guard in G4 as (name' & -> & Hname).
  destruct ci; try done. destruct tc; try done.
  cbn [str_of] in *.
  destruct (Z.gtb_spec (strlen data') MAX_CHUNK_SIZE); [done |].
  destruct (Z.gtb_spec (strlen name') 255); [done |].
  by eexists _, _, _, _, _.
Qed.

Lemma sendChunk_key_inv key body env st :
  key_inv key (fileChunks st) (heap st) →
  (accepted_chunk body → body_key body = key → index_in_range body st) →
  key_inv key (fileChunks (sendChunk body env st).2)
              (heap (sendChunk body env st).2).
Proof.
  intros Hinv Hrange.
  destruct (sendChunk_cases body env st)
    as [[error ->] | Haccepted]; [done |].
  specialize (Hrange Haccepted).
  destruct Haccepted as (from & ci & tc & data & fileName & Hbody & Hfrom
                         & Hname & Hdata).
  destruct body as [? ? ? ? ? ft fs]. injection Hbody as -> -> -> -> ->.
  unfold body_key, index_in_range, declared_total in Hrange.
  cbn [ChunkBody.from ChunkBody.fileName ChunkBody.totalChunks
       ChunkBody.chunkIndex str_of num_of] in Hrange.
  unfold chunk_set_at in Hrange.
  destruct (get_fileChunks (chunk_key from fileName) (fileChunks st))
    as [l | |] eqn:Hget.
  - apply get_fileChunks_Own in Hget.
    destruct (lookup_lt_is_Some_2 (heap st) l) as [cs Hcs].
    { destruct Hinv as (Hwf & _). eauto. }
    rewrite Hget in Hrange. cbn [mbind option_bind] in Hrange.
    rewrite Hcs in Hrange.
    rewrite (sendChunk_stores from fileName _ _ _ ft fs env st l cs)
      by done.
    cbn zeta. cbn [snd]. case_bool_decide; cbn [fileChunks heap
      set_pendingCleanups set_messages set_heap];
      (eapply key_inv_write; [done .. |];
       intros Hkey; destruct (Hrange Hkey) as (i & t & [= ->] & Ht & Hi);
       by exists i, t).
  - by rewrite sendChunk_inherited.
  - assert (fileChunks st !! chunk_key from fileName = None) as Hnone
      by (apply get_fileChunks_not_own; auto).
    rewrite Hnone in Hrange. cbn [mbind option_bind] in Hrange.
    rewrite sendChunk_creates by done.
    set (fresh := ChunkSet.mk from fileName ft fs tc ∅ None).
    rewrite (sendChunk_stores from fileName _ _ _ ft fs env _
               (length (heap st)) fresh); try done; cycle 1.
    { cbn [fileChunks set_fileChunks]. by rewrite lookup_insert_eq. }
    { cbn [heap set_fileChunks set_heap]. by rewrite list_lookup_middle. }
    cbn zeta. cbn [snd]. case_bool_decide; cbn [fileChunks heap
      set_pendingCleanups set_messages set_heap set_fileChunks];
      (eapply key_inv_write;
       [ eapply (key_inv_create _ _ _ _ fresh); [done | done | done |];
         intros Hkey; destruct (Hrange Hkey) as (i & t & _ & Ht & _);
         by exists t
       | by rewrite lookup_insert_eq
       | by rewrite list_lookup_middle
       | intros Hkey; destruct (Hrange Hkey) as (i & t & [= ->] & Ht & Hi);
         by exists i, t ]).
Qed.

(** The other routes leave the chunk sets alone, or drop some. *)
Lemma handle_other_fileChunks r env st :
  (∀ body, r ≠ SendChunk body) →
  fileChunks (handle J r env st).2 ⊆ fileChunks st
  ∧ heap (handle J r env st).2 = heap st.
Proof.
  intros Hother. destruct r; cbn [handle].
  - unfold registerUser. handler_cases.
  - unfold registerJournalist. handler_cases.
  - unfold sendMessage. handler_cases.
  - by destruct (Hother body).
  - unfold getMessages. handler_cases.
  - unfold nukeUser. handler_cases. split; [| done].
    apply map_filter_subseteq.
  - done.
Qed.

Lemma step_key_inv key st st' :
  key_inv key (fileChunks st) (heap st) →
  (∃ e, in_range_for key e st ∧ fires J e st st') →
  key_inv key (fileChunks st') (heap st').
Proof.
  intros Hinv (e & Hrange & Hfires).
  destruct Hfires as [ip now r env st | before k after st Hpending | |];
    try done.
  - unfold serve. cbn [in_range_for] in Hrange.
    destruct (rateLimit ip now (rateLimitMap st)) as [[] m]; [| done].
    set (st1 := set_rateLimitMap m st).
    destruct r as [| | | body | | |];
      try (match goal with
           | |- context [handle J ?r env st1] =>
               destruct (handle_other_fileChunks r env st1) as [Hsub Hheap];
               [done | rewrite Hheap; by eapply key_inv_subseteq]
           end).
    cbn [handle]. apply sendChunk_key_inv; [done |].
    intros Haccepted Hkey. by apply Hrange.
  - cbn [fileChunks heap set_pendingCleanups chunkCleanup set_fileChunks].
    eapply key_inv_subseteq; [apply delete_subseteq | done].
Qed.

Lemma reachable_in_range_for_key_inv key st :
  reachable_in_range_for J key st → key_inv key (fileChunks st) (heap st).
Proof.
  unfold reachable_in_range_for.
  apply (rtc_ind_r (λ st, key_inv key (fileChunks st) (heap st))).
  - repeat split; intros *; by rewrite ?lookup_empty.
  - eauto using step_key_inv.
Qed.
End InRange.

(** C3, amended.  Take a key, and a state reached while every chunk
    request that was let through, passed the guards of the route and wrote
    under this key carried a natural-number index below the total recorded
    for the key (the [totalChunks] of the request that created the chunk
    set, a natural number); the requests for other keys and the refused
    requests are free.  Then the chunk set under the key has at most
    [totalChunks] indices, each between 0 and [totalChunks - 1].  The server
    does not check the index. *)
Theorem chunk_set_bounded_per_key J st key cs :
  reachable_in_range_for J key st →
  chunk_set_at st key = Some cs →
  chunks_bounded cs.
Proof.
  intros Hreach Hcs. apply indices_below_total_bounded.
  destruct (reachable_in_range_for_key_inv J key st Hreach)
    as (_ & _ & Hbound).
  unfold chunk_set_at in Hcs.
  destruct (fileChunks st !! key) as [l |] eqn:Hkey; [| done].
  by eapply Hbound.
Qed.

Lemma chunk_set_bounded_per_key_witness :
  reachable_in_range_for None "u2_b.txt" (after_mixed_chunks None)
  ∧ chunk_set_at (after_mixed_chunks None) "u2_b.txt"
    = Some (ChunkSet.mk "u2" "b.txt" (JStr "text/plain") (JNum (num_of_Z 3))
                        (num_of_Z 2) (<[num_of_Z 0 := "QUJD"%string]> ∅)
                        (Some 1700000000000))
  ∧ chunks_bounded
      (ChunkSet.mk "u2" "b.txt" (JStr "text/plain") (JNum (num_of_Z 3))
                   (num_of_Z 2) (<[num_of_Z 0 := "QUJD"%string]> ∅)
                   (Some 1700000000000)).
Proof.
  assert (reachable_in_range_for None "u2_b.txt" (after_mixed_chunks None))
    as Hreach.
  { apply (rtc_l _ _
             (serve None sample_ip 0
                (SendChunk
                   (sample_chunk "u1" "a.txt" (num_of_Z 5) (num_of_Z 1)))
                sample_env initial).2).
    - exists (Request sample_ip 0
                (SendChunk
                   (sample_chunk "u1" "a.txt" (num_of_Z 5) (num_of_Z 1)))
                sample_env).
      split; [| apply fires_request].
      intros _ _ Hkey. vm_compute in Hkey. discriminate Hkey.
    - apply rtc_once.
      exists (Request sample_ip 1
                (SendChunk
                   (sample_chunk "u2" "b.txt" (num_of_Z 0) (num_of_Z 2)))
                sample_env).
      split; [| apply fires_request].
      intros _ _ _. exists 0%nat, 2%nat. repeat split. lia. }
  split; [exact Hreach |]. split; [reflexivity |].
  apply (chunk_set_bounded_per_key
           None (after_mixed_chunks None) "u2_b.txt");
    [exact Hreach | reflexivity].
Defined.

(** ** Well-formedness of the reassembler's store *)

Section WellFormed.
Context (J : option string).

Lemma get_fileChunks_Missing key (fc : gmap string loc) :
  get_fileChunks key fc = Missing →
  fc !! key = None ∧ key ∉ objectPrototypeProperties.
Proof.
  unfold get_fileChunks. destruct (fc !! key); [done |].
  by case_bool_decide.
Qed.

Lemma fileChunks_wf_subseteq (fc fc' : gmap string loc) h :
  fc' ⊆ fc → fileChunks_wf fc h → fileChunks_wf fc' h.
Proof.
  intros Hsub [Hwf Hown]. split.
  - intros key l Hkey. eapply Hwf, lookup_weaken; eauto.
  - intros key Hkey. specialize (Hown key Hkey).
    destruct (fc' !! key) as [l |] eqn:Hl; [| done].
    by rewrite (lookup_weaken _ _ _ _ Hl Hsub) in Hown.
Qed.

Lemma sendChunk_fileChunks_wf body env st :
  fileChunks_wf (fileChunks st) (heap st) →
  fileChunks_wf (fileChunks (sendChunk body env st).2)
                (heap (sendChunk body env st).2).
Proof.
  intros [Hwf Hown].
  destruct (sendChunk_cases body env st)
    as [[error ->] | (from & ci & tc & data & fileName & Hbody & Hfrom
                      & Hname & Hdata)]; [done |].
  destruct body as [? ? ? ? ? ft fs]. injection Hbody as -> -> -> -> ->.
  destruct (get_fileChunks (chunk_key from fileName) (fileChunks st))
    as [l | |] eqn:Hget.
  - apply get_fileChunks_Own in Hget.
    destruct (lookup_lt_is_Some_2 (heap st) l) as [cs Hcs]; [eauto |].
    rewrite (sendChunk_stores from fileName _ _ _ ft fs env st l cs) by done.
    cbn zeta. cbn [snd]. case_bool_decide; cbn [fileChunks heap
      set_pendingCleanups set_messages set_heap];
      (split; [intros ? ? ?; rewrite length_insert; eauto | done]).
  - by rewrite sendChunk_inherited.
  - apply get_fileChunks_Missing in Hget as Hmissing.
    destruct Hmissing as [Hnone Hnot].
    rewrite sendChunk_creates by done.
    rewrite (sendChunk_stores from fileName _ _ _ ft fs env _
               (length (heap st))
               (ChunkSet.mk from fileName ft fs tc ∅ None)); try done; cycle 1.
    { cbn [fileChunks set_fileChunks]. by rewrite lookup_insert_eq. }
    { cbn [heap set_fileChunks set_heap]. by rewrite list_lookup_middle. }
    cbn zeta. cbn [snd]. case_bool_decide; cbn [fileChunks heap
      set_pendingCleanups set_messages set_heap set_fileChunks];
      (split;
       [ intros key l [[_ <-] | [_ Hold]]%lookup_insert_Some;
         rewrite length_insert, length_app; simpl; [lia |];
         apply Hwf in Hold; lia
       | intros key Hkey; rewrite lookup_insert_ne by congruence; auto ]).
Qed.

Lemma step_fileChunks_wf st st' :
  fileChunks_wf (fileChunks st) (heap st) →
  step J st st' →
  fileChunks_wf (fileChunks st') (heap st').
Proof.
  intros Hinv (e & Hfires).
  destruct Hfires as [ip now r env st | before key after st Hpending | |];
    try done.
  - unfold serve. destruct (rateLimit _ _ _) as [[] m]; [| done].
    set (st1 := set_rateLimitMap m st).
    destruct r as [| | | body | | |];
      try (match goal with
           | |- context [handle J ?r env st1] =>
               destruct (handle_other_fileChunks J r env st1) as [Hsub Hheap];
               [done | rewrite Hheap; by eapply fileChunks_wf_subseteq]
           end).
    cbn [handle]. by apply sendChunk_fileChunks_wf.
  - cbn [fileChunks heap set_pendingCleanups chunkCleanup set_fileChunks].
    eapply fileChunks_wf_subseteq; [apply delete_subseteq | done].
Qed.

(** In every reachable state the addresses under the keys are allocated, so
    the chunk route always finds the object it is about to write. *)
Lemma reachable_fileChunks_wf st :
  reachable J st → fileChunks_wf (fileChunks st) (heap st).
Proof.
  apply (reachable_invariant J
           (λ st, fileChunks_wf (fileChunks st) (heap st))).
  - split; intros *; by rewrite ?lookup_empty.
  - eauto using step_fileChunks_wf.
Qed.

Lemma reachable_chunk_set_allocated st key l :
  reachable J st → fileChunks st !! key = Some l → is_Some (heap st !! l).
Proof.
  intros [Hwf _]%reachable_fileChunks_wf Hkey.
  apply lookup_lt_is_Some_2. eauto.
Qed.

(** In every reachable state a chunk for the sender ["_"] and the file name
    ["proto__"] makes the handler throw. *)
Lemma reachable_proto_key_throws st env :
  reachable J st → sendChunk proto_chunk env st = (Threw, st).
Proof.
  intros [_ Hown]%reachable_fileChunks_wf.
  apply sendChunk_proto_key, Hown.
  unfold objectPrototypeProperties. set_solver.
Qed.
End WellFormed.

(** The transfer of the example: chunks 0, 2, 1 of a three-chunk file. *)
Example three_chunks_complete_once :
  (submit_all three_chunks initial).1
  = (λ k, ChunkProgress k (num_of_nat 3)) <$> seq 1 3
  ∧ (∀ k, (k < 3)%nat →
       messages (submit_all (take k three_chunks) initial).2 = [])
  ∧ ∃ i, list.last [0; 2; 1]%nat = Some i
         ∧ messages (submit_all three_chunks initial).2
           = [file_message "u1" 0 sample_env].
Proof.
  apply (transfer_completes_once "u1" "a.txt" 3 (λ _, "QUJD"%string)
           (JStr "text/plain") (JNum (num_of_Z 12)) (λ _, sample_env)).
  - done.
  - by vm_compute.
  - lia.
  - cbn [seq]. apply perm_skip, perm_swap.
  - intros i _. by vm_compute.
  - by vm_compute.
Qed.

(** * Further properties *)

(** ** The participant registry *)

Section Registry.
Implicit Types (us : list User.t) (h : string).

Lemma has_user_spec h us : has_user h us = true ↔ h ∈ User.hash <$> us.
Proof.
  unfold has_user. induction us as [| u us IH]; simpl.
  - split; [done | by intros ?%elem_of_nil].
  - rewrite elem_of_cons, <- IH.
    destruct (String.eqb_spec (User.hash u) h); simpl.
    + split; [by left | done].
    + split; [by right | by intros [? | ?]].
Qed.

Lemma has_user_false h us : has_user h us = false ↔ h ∉ User.hash <$> us.
Proof.
  rewrite <- has_user_spec. by destruct (has_user h us).
Qed.

(** Refreshing a record rewrites the first record of the hash in place. *)
Lemma touch_user_split h now us :
  has_user h us = true →
  ∃ before u after,
    us = before ++ u :: after
    ∧ User.hash u = h
    ∧ has_user h before = false
    ∧ touch_user h now us = before ++ User.mk h now :: after.
Proof.
  induction us as [| u us IH]; [done |]. intros Hhas. simpl in *.
  destruct (String.eqb_spec (User.hash u) h) as [Heq | Hne].
  - exists [], u, us. by rewrite Heq.
  - destruct (IH Hhas) as (before & u' & after & -> & Hu' & Hbefore & ->).
    exists (u :: before), u', after. repeat split; [done |].
    simpl. by destruct (String.eqb_spec (User.hash u) h).
Qed.

Lemma touch_user_hashes h now us :
  User.hash <$> touch_user h now us = User.hash <$> us.
Proof.
  induction us as [| u us IH]; [done |]. simpl.
  destruct (String.eqb_spec (User.hash u) h); simpl; by f_equal.
Qed.

Lemma remove_user_sublist h us : remove_user h us `sublist_of` us.
Proof.
  induction us as [| u us IH]; [done |]. simpl.
  destruct (String.eqb (User.hash u) h).
  - by apply sublist_cons.
  - by apply sublist_skip.
Qed.

(** With each hash held once, removing the first record of a hash removes
    the hash. *)
Lemma remove_user_filter h us :
  NoDup (User.hash <$> us) →
  remove_user h us
  = List.filter (λ u, negb (String.eqb (User.hash u) h)) us.
Proof.
  induction us as [| u us IH]; [done |]. simpl.
  intros [Hu Hnodup]%NoDup_cons.
  destruct (String.eqb_spec (User.hash u) h) as [Heq | Hne]; simpl.
  - subst h. clear IH. induction us as [| v us IH]; [done |]. simpl in *.
    apply not_elem_of_cons in Hu as [Hv Hu].
    apply NoDup_cons in Hnodup as [_ Hnodup].
    destruct (String.eqb_spec (User.hash v) (User.hash u)); [congruence |].
    simpl. f_equal. auto.
  - f_equal. auto.
Qed.

Lemma registry_inv_hashes us us' :
  registry_inv us →
  User.hash <$> us' `sublist_of` User.hash <$> us →
  registry_inv us'.
Proof.
  intros (Hnodup & Hvalid & Hlen) Hsub. repeat split.
  - eapply sublist_NoDup; eauto.
  - intros u' Hu'.
    assert (User.hash u' ∈ User.hash <$> us) as Hin.
    { eapply elem_of_sublist; [| exact Hsub]. by apply list_elem_of_fmap_2. }
    apply list_elem_of_fmap in Hin as (u & -> & Hu). auto.
  - apply sublist_length in Hsub. rewrite !length_fmap in Hsub. lia.
Qed.

Lemma registerUser_registry_inv hash env st :
  registry_inv (users st) → registry_inv (users (registerUser hash env st).2).
Proof.
  intros Hinv. unfold registerUser.
  destruct (validateHash hash) eqn:Hvalid; [| done]. simpl.
  destruct (has_user (str_of hash) (users st)) eqn:Hhas; simpl.
  - rewrite andb_false_r. simpl.
    eapply registry_inv_hashes; [done |]. by rewrite touch_user_hashes.
  - rewrite andb_true_r.
    destruct (Z.geb_spec (Z.of_nat (length (users st))) MAX_USERS); [done |].
    simpl. destruct Hinv as (Hnodup & Hall & Hlen). repeat split.
    + rewrite fmap_app. simpl. apply NoDup_app. repeat split; [done | |].
      * intros x Hx ->%list_elem_of_singleton. by apply has_user_false in Hhas.
      * apply NoDup_singleton.
    + intros u [Hu | ->%list_elem_of_singleton]%elem_of_app; [auto |].
      simpl. by rewrite <- (validateHash_str_of hash Hvalid).
    + rewrite length_app. simpl. lia.
Qed.

Lemma handle_registry_inv J r env st :
  registry_inv (users st) → registry_inv (users (handle J r env st).2).
Proof.
  intros Hinv. destruct r; cbn [handle].
  - by apply registerUser_registry_inv.
  - unfold registerJournalist. handler_cases.
  - unfold sendMessage. handler_cases.
  - unfold sendChunk, write_chunk, ensure_chunk_set. handler_cases.
  - unfold getMessages. handler_cases.
  - unfold nukeUser. handler_cases.
    eapply registry_inv_hashes; [done |].
    apply fmap_sublist, remove_user_sublist.
  - done.
Qed.

Lemma reachable_registry_inv J st :
  reachable J st → registry_inv (users st).
Proof.
  apply (reachable_invariant J (λ st, registry_inv (users st))).
  - repeat split; [apply NoDup_nil_2 | by intros ? ?%elem_of_nil | done].
  - intros s s' Hinv [e Hfires].
    destruct Hfires as [ip now r env s | | |]; try done.
    unfold serve. destruct (rateLimit _ _ _) as [[] m]; [| done].
    by apply handle_registry_inv.
Qed.
End Registry.

(** X1.  In every reachable state the registry holds each hash at most
    once, holds only 32-character lowercase-hex hashes, and holds at most
    [MAX_USERS] records. *)
Theorem registry_unique_valid_bounded J st :
  reachable J st →
  NoDup (User.hash <$> users st)
  ∧ (∀ u, u ∈ users st → validateHash (JStr (User.hash u)) = true)
  ∧ Z.of_nat (length (users st)) ≤ MAX_USERS.
Proof. apply reachable_registry_inv. Qed.

Lemma registry_unique_valid_bounded_witness :
  NoDup (User.hash <$> users (after_registrations None))
  ∧ (∀ u, u ∈ users (after_registrations None) →
          validateHash (JStr (User.hash u)) = true)
  ∧ Z.of_nat (length (users (after_registrations None))) ≤ MAX_USERS.
Proof.
  apply (registry_unique_valid_bounded None (after_registrations None)).
  eapply rtc_l; [eexists; apply fires_request |].
  eapply rtc_l; [eexists; apply fires_request |].
  apply rtc_once. eexists. apply fires_request.
Defined.

(** X2.  Registering a hash that is already registered succeeds whatever
    the size of the registry: the first record of the hash gets the current
    time as [lastActive], no record is added, and the journalist's key is
    returned. *)
Theorem registerUser_refreshes (hash : json) env st :
  validateHash hash = true →
  has_user (str_of hash) (users st) = true →
  ∃ before u after,
    users st = before ++ u :: after
    ∧ User.hash u = str_of hash
    ∧ has_user (str_of hash) before = false
    ∧ registerUser hash env st
      = (Registered (journalistPublicKey st),
         set_users
           (before ++ User.mk (str_of hash) (dateNow env 0) :: after) st).
Proof.
  intros Hvalid Hhas.
  destruct (touch_user_split (str_of hash) (dateNow env 0) (users st) Hhas)
    as (before & u & after & Hsplit & Hu & Hbefore & Htouch).
  exists before, u, after. repeat split; try done.
  unfold registerUser. rewrite Hvalid, Hhas, andb_false_r. simpl.
  by rewrite Htouch.
Qed.

Lemma registerUser_refreshes_witness :
  ∃ before u after,
    users (after_registrations None) = before ++ u :: after
    ∧ User.hash u = str_of (JStr sample_hash)
    ∧ has_user (str_of (JStr sample_hash)) before = false
    ∧ registerUser (JStr sample_hash) sample_env (after_registrations None)
      = (Registered (journalistPublicKey (after_registrations None)),
         set_users
           (before
            ++ User.mk (str_of (JStr sample_hash)) (dateNow sample_env 0)
               :: after)
           (after_registrations None)).
Proof.
  apply (registerUser_refreshes (JStr sample_hash) sample_env
           (after_registrations None)).
  - reflexivity.
  - reflexivity.
Defined.

(** ** Failed requests *)

Lemma sendChunk_failure body env st :
  is_failure (sendChunk body env st).1 = true →
  (sendChunk body env st).2 = st.
Proof.
  destruct (sendChunk_cases body env st)
    as [[error ->] | (from & ci & tc & data & fileName & Hbody & Hfrom
                      & Hname & Hdata)]; [done |].
  destruct body as [? ? ? ? ? ft fs]. injection Hbody as -> -> -> -> ->.
  destruct (get_fileChunks (chunk_key from fileName) (fileChunks st))
    as [l | |] eqn:Hget.
  - destruct (heap st !! l) as [cs |] eqn:Hcs.
    + apply get_fileChunks_Own in Hget.
      by rewrite (sendChunk_stores from fileName _ _ _ ft fs env st l cs).
    + rewrite sendChunk_valid by done.
      unfold ensure_chunk_set, write_chunk. by rewrite Hget, Hget, Hcs.
  - by rewrite sendChunk_inherited.
  - rewrite sendChunk_creates by done.
    by rewrite (sendChunk_stores from fileName _ _ _ ft fs env _
                  (length (heap st))
                  (ChunkSet.mk from fileName ft fs tc ∅ None));
      [| done | done | done
       | cbn [fileChunks set_fileChunks]; by rewrite lookup_insert_eq
       | cbn [heap set_fileChunks set_heap]; by rewrite list_lookup_middle ].
Qed.

Lemma handle_failure J r env st :
  is_failure (handle J r env st).1 = true → (handle J r env st).2 = st.
Proof.
  destruct r; cbn [handle].
  - unfold registerUser. handler_cases.
  - unfold registerJournalist. handler_cases.
  - unfold sendMessage. handler_cases.
  - apply sendChunk_failure.
  - unfold getMessages. handler_cases.
  - unfold nukeUser. handler_cases.
  - done.
Qed.

(** X3.  A request that is answered with an error status (400, 403, 429,
    503) or that makes its handler throw leaves the messages, the registry,
    the chunk sets, the journalist's key and the pending clean-ups as they
    were: only the rate limiter's record of the client has changed. *)
Theorem serve_failure_keeps_store J ip now r env st :
  is_failure (serve J ip now r env st).1 = true →
  (serve J ip now r env st).2
  = set_rateLimitMap (rateLimit ip now (rateLimitMap st)).2 st.
Proof.
  unfold serve. destruct (rateLimit ip now (rateLimitMap st)) as [[] m];
    [| done].
  intros Hfail. by rewrite (handle_failure J r env _ Hfail).
Qed.

Lemma serve_failure_keeps_store_witness :
  (serve None sample_ip 0 (SendChunk proto_chunk) sample_env
         (after_one_message None)).2
  = set_rateLimitMap
      (rateLimit sample_ip 0 (rateLimitMap (after_one_message None))).2
      (after_one_message None).
Proof.
  apply (serve_failure_keeps_store
           None sample_ip 0 (SendChunk proto_chunk) sample_env
           (after_one_message None)).
  reflexivity.
Defined.

(** ** The message route *)

Lemma validateMessageData_spec (data : json) :
  validateMessageData data = true
  ↔ ∃ s, data = JStr s ∧ s ≠ ""%string ∧ strlen s ≤ MAX_MESSAGE_SIZE.
Proof.
  unfold validateMessageData. split.
  - destruct data as [| | b | n | s | |]; simpl;
      rewrite ?andb_false_r; try done.
    destruct (String.eqb_spec s ""); [done |]. simpl.
    intros Hle%Z.leb_le. eauto.
  - intros (s & -> & Hne & Hle). simpl.
    destruct (String.eqb_spec s ""); [done |]. simpl. by apply Z.leb_le.
Qed.

(** X4.  The message route accepts a request exactly when the sender is a
    non-empty string, the payload is a non-empty string of at most
    [MAX_MESSAGE_SIZE] code units and the store holds fewer than
    [MAX_MESSAGES] messages.  An accepted request appends exactly one
    message to the store and changes nothing else: the message has the
    identifier of the response, the sender and the payload of the request,
    the recipient of the request or [null], the request's timestamp, file
    flag and public key or their defaults, and no file data.  In every other
    case nothing is stored. *)
Theorem sendMessage_accepts_iff body env st :
  ((∃ id, (sendMessage body env st).1 = Sent id)
   ↔ (∃ from, MessageBody.from body = JStr from ∧ from ≠ ""%string)
     ∧ (∃ data, MessageBody.encryptedData body = JStr data
                ∧ data ≠ ""%string ∧ strlen data ≤ MAX_MESSAGE_SIZE)
     ∧ Z.of_nat (length (messages st)) < MAX_MESSAGES)
  ∧ (∀ id, (sendMessage body env st).1 = Sent id →
     ∃ msg,
       (sendMessage body env st).2 = set_messages (messages st ++ [msg]) st
       ∧ Message.id msg = id
       ∧ JStr (Message.from msg) = MessageBody.from body
       ∧ Message.encryptedData msg = MessageBody.encryptedData body
       ∧ Message.to msg = js_or (MessageBody.to body) JNull
       ∧ Message.timestamp msg
         = js_or (MessageBody.timestamp body)
                 (JNum (num_of_Z (dateNow env 1)))
       ∧ Message.hasFiles msg
         = js_or (MessageBody.hasFiles body) (JBool false)
       ∧ Message.userPublicKey msg
         = js_or (MessageBody.userPublicKey body) JNull
       ∧ Message.fileData msg = None)
  ∧ ((∀ id, (sendMessage body env st).1 ≠ Sent id) →
     (sendMessage body env st).2 = st).
Proof.
  unfold sendMessage.
  destruct (negb (truthy (MessageBody.from body))
            || negb (is_string (MessageBody.from body))) eqn:Hfrom.
  { split; [| done]. split; [by intros [? ?] |].
    intros [Hok _]. apply non_empty_string_guard in Hok. congruence. }
  destruct (validateMessageData (MessageBody.encryptedData body)) eqn:Hdata;
    simpl.
  2:{ split; [| done]. split; [by intros [? ?] |].
      intros (_ & Hok & _). apply validateMessageData_spec in Hok.
      congruence. }
  destruct (Z.geb_spec (Z.of_nat (length (messages st))) MAX_MESSAGES).
  { split; [| done]. split; [by intros [? ?] | lia]. }
  apply non_empty_string_guard in Hfrom.
  apply validateMessageData_spec in Hdata.
  split; [| split].
  - split; [| eauto]. intros _. repeat split; [done .. | lia].
  - intros id [= <-]. eexists (Message.mk _ _ _ _ _ _ _ _).
    split; [reflexivity |]. cbn.
    destruct Hfrom as (from & -> & _). done.
  - intros Hnot. by destruct (Hnot (new_id (dateNow env 0) env)).
Qed.

Lemma sendMessage_accepts_iff_witness :
  ∃ msg,
    (sendMessage (text_from "alice" (JStr sample_hash)) sample_env
                 sample_store).2
    = set_messages (messages sample_store ++ [msg]) sample_store
    ∧ Message.id msg = "1700000000000k3x9q0zab"%string
    ∧ JStr (Message.from msg) = JStr "alice"
    ∧ Message.encryptedData msg = JStr "3q2+7w=="
    ∧ Message.to msg = JStr sample_hash
    ∧ Message.timestamp msg = JNum (num_of_Z 1700000000000)
    ∧ Message.hasFiles msg = JBool false
    ∧ Message.userPublicKey msg = JNull
    ∧ Message.fileData msg = None.
Proof.
  apply (proj1 (proj2 (sendMessage_accepts_iff
                         (text_from "alice" (JStr sample_hash)) sample_env
                         sample_store))).
  reflexivity.
Defined.

Lemma strict_eq_str_spec (v : json) s : strict_eq_str v s = true ↔ v = JStr s.
Proof.
  destruct v as [| | | | s' | |]; simpl; try (split; done).
  destruct (String.eqb_spec s' s); split; congruence.
Qed.

Lemma validateHash_truthy s :
  validateHash (JStr s) = true → truthy (JStr s) = true.
Proof. unfold validateHash. by intros [[[? _]%andb_prop _]%andb_prop _]%andb_prop. Qed.

(** X5.  A message accepted by the message route with a valid identifier as
    recipient is stored with the sender, the recipient and the payload of
    the request; from then on it ends the recipient's listing and the
    journalist's listing. *)
Theorem sendMessage_delivers from to body env userType (q : json) st :
  MessageBody.from body = JStr from →
  from ≠ ""%string →
  MessageBody.to body = JStr to →
  validateHash (JStr to) = true →
  validateMessageData (MessageBody.encryptedData body) = true →
  Z.of_nat (length (messages st)) < MAX_MESSAGES →
  userType ≠ "journalist"%string →
  ∃ msg st',
    sendMessage body env st = (Sent (Message.id msg), st')
    ∧ Message.from msg = from
    ∧ Message.to msg = JStr to
    ∧ Message.encryptedData msg = MessageBody.encryptedData body
    ∧ getMessages userType (JStr to) st'
      = (Messages (List.filter (concerns to) (messages st) ++ [msg]), st')
    ∧ getMessages "journalist" q st'
      = (Messages (messages st ++ [msg]), st').
Proof.
  intros Hfrom Hne Hto Hvalid Hdata Hroom Hut.
  unfold sendMessage.
  rewrite Hfrom, (non_empty_string_passes from Hne), Hdata, Hto. simpl.
  destruct (Z.geb_spec (Z.of_nat (length (messages st))) MAX_MESSAGES);
    [lia |].
  unfold js_or at 1. rewrite (validateHash_truthy to Hvalid).
  eexists (Message.mk _ _ _ _ _ _ _ _), _. split; [reflexivity |].
  cbn [Message.from Message.to Message.encryptedData].
  repeat split.
  unfold getMessages. destruct (String.eqb_spec userType "journalist");
    [done |].
  rewrite Hvalid. cbn [negb str_of messages set_messages].
  rewrite List.filter_app. cbn [List.filter]. unfold concerns at 2.
  cbn [Message.from Message.to strict_eq_str].
  by rewrite String.eqb_refl, orb_true_r.
Qed.

Lemma sendMessage_delivers_witness :
  ∃ msg st',
    sendMessage (text_from other_hash (JStr sample_hash)) sample_env initial
    = (Sent (Message.id msg), st')
    ∧ Message.from msg = other_hash
    ∧ Message.to msg = JStr sample_hash
    ∧ Message.encryptedData msg
      = MessageBody.encryptedData (text_from other_hash (JStr sample_hash))
    ∧ getMessages "user" (JStr sample_hash) st'
      = (Messages
           (List.filter (concerns sample_hash) (messages initial) ++ [msg]),
         st')
    ∧ getMessages "journalist" JUndef st'
      = (Messages (messages initial ++ [msg]), st').
Proof.
  apply (sendMessage_delivers other_hash sample_hash
           (text_from other_hash (JStr sample_hash)) sample_env "user" JUndef
           initial).
  - reflexivity.
  - discriminate.
  - reflexivity.
  - reflexivity.
  - reflexivity.
  - reflexivity.
  - discriminate.
Defined.

Lemma list_filter_sublist {A} (f : A → bool) (l : list A) :
  List.filter f l `sublist_of` l.
Proof.
  induction l as [| x l IH]; [done |]. simpl.
  destruct (f x); [by apply sublist_skip | by apply sublist_cons].
Qed.

(** X6.  The listing of a valid identifier holds, in the order of the
    store, exactly the stored messages whose sender is the identifier or
    whose recipient is the identifier as a string: no other message is
    shown, and the request changes nothing. *)
Theorem getMessages_user_listing (hash : json) userType st :
  validateHash hash = true →
  userType ≠ "journalist"%string →
  ∃ listing,
    getMessages userType hash st = (Messages listing, st)
    ∧ listing `sublist_of` messages st
    ∧ ∀ m, m ∈ listing
           ↔ m ∈ messages st
             ∧ (Message.from m = str_of hash ∨ Message.to m = hash).
Proof.
  intros Hvalid Hut. unfold getMessages.
  destruct (String.eqb_spec userType "journalist"); [done |].
  rewrite Hvalid. simpl. eexists. split; [reflexivity |].
  split; [apply list_filter_sublist |].
  intros m. rewrite !list_elem_of_In, List.filter_In. unfold concerns.
  rewrite orb_true_iff, strict_eq_str_spec, String.eqb_eq.
  by rewrite <- (validateHash_str_of hash Hvalid).
Qed.

Lemma getMessages_user_listing_witness :
  ∃ listing,
    getMessages "user" (JStr sample_hash) sample_store
    = (Messages listing, sample_store)
    ∧ listing `sublist_of` messages sample_store
    ∧ ∀ m, m ∈ listing
           ↔ m ∈ messages sample_store
             ∧ (Message.from m = str_of (JStr sample_hash)
                ∨ Message.to m = JStr sample_hash).
Proof.
  apply (getMessages_user_listing (JStr sample_hash) "user" sample_store).
  - reflexivity.
  - discriminate.
Defined.

(** ** Capacity of the store without the chunk route *)

Lemma handle_messages_bounded J r env st :
  (∀ body, r ≠ SendChunk body) →
  Z.of_nat (length (messages st)) ≤ MAX_MESSAGES →
  Z.of_nat (length (messages (handle J r env st).2)) ≤ MAX_MESSAGES.
Proof.
  intros Hother Hle. destruct r; cbn [handle].
  - unfold registerUser. handler_cases.
  - unfold registerJournalist. handler_cases.
  - unfold sendMessage. repeat case_match; try done.
    cbn [snd messages set_messages]. rewrite length_app. simpl.
    destruct (Z.geb_spec (Z.of_nat (length (messages st))) MAX_MESSAGES);
      [done | lia].
  - by destruct (Hother body).
  - unfold getMessages. handler_cases.
  - unfold nukeUser. repeat case_match; try done.
    cbn [snd messages set_fileChunks set_users set_messages].
    rewrite nuke_loop_filter.
    pose proof (List.filter_length_le
                  (λ m, negb (String.eqb (Message.from m) (str_of hash)))
                  (messages st)). lia.
  - done.
Qed.

(** X7.  As long as no request goes to the chunk route, the store never
    holds more than [MAX_MESSAGES] messages. *)
Theorem messages_bounded_without_chunks J st :
  reachable_without_chunks J st →
  Z.of_nat (length (messages st)) ≤ MAX_MESSAGES.
Proof.
  unfold reachable_without_chunks.
  apply (rtc_ind_r (λ st, Z.of_nat (length (messages st)) ≤ MAX_MESSAGES)).
  - done.
  - intros s s' _ (e & Hnone & Hfires) Hle.
    destruct Hfires as [ip now r env s | | now expired s |]; try done.
    + unfold serve. destruct (rateLimit _ _ _) as [[] m]; [| done].
      apply handle_messages_bounded; [| done].
      intros body ->. exact Hnone.
    + cbn [messages expireMessages set_messages].
      pose proof (List.filter_length_le (λ m, negb (expired m)) (messages s)).
      lia.
Qed.

Lemma messages_bounded_without_chunks_witness :
  Z.of_nat (length (messages (after_one_message None))) ≤ MAX_MESSAGES.
Proof.
  apply (messages_bounded_without_chunks None (after_one_message None)).
  apply rtc_once. eexists. split; [| apply fires_request]. exact I.
Defined.

(** ** The nuke route *)

Lemma prefix_app (a b c : string) :
  String.prefix (a +:+ b) (a +:+ c) = String.prefix b c.
Proof.
  induction a as [| x a IH]; [done |]. simpl.
  by destruct (Ascii.ascii_dec x x).
Qed.

Lemma prefix_chunk_key hash fileName :
  String.prefix (hash +:+ "_") (chunk_key hash fileName) = true.
Proof.
  unfold chunk_key. rewrite prefix_app. simpl.
  destruct (Ascii.ascii_dec "_" "_"); [| done]. by destruct fileName.
Qed.

Lemma has_user_filter_out h (us : list User.t) :
  has_user h (List.filter (λ u, negb (String.eqb (User.hash u) h)) us) = false.
Proof.
  unfold has_user. induction us as [| u us IH]; [done |]. simpl.
  destruct (String.eqb (User.hash u) h) eqn:Hu; simpl; [done |].
  by rewrite Hu.
Qed.

(** X8.  In a reachable state, the nuke request of a valid identifier
    leaves no record of it in the registry and no chunk set under a key
    made of it and a file name; the records of the other identifiers are
    kept in order, and so is every chunk set whose key does not start with
    the identifier and an underscore. *)
Theorem nukeUser_forgets J (hash : json) st :
  reachable J st →
  validateHash hash = true →
  has_user (str_of hash) (users (nukeUser hash st).2) = false
  ∧ users (nukeUser hash st).2
    = List.filter (λ u, negb (String.eqb (User.hash u) (str_of hash)))
                  (users st)
  ∧ (∀ fileName,
       chunk_set_at (nukeUser hash st).2 (chunk_key (str_of hash) fileName)
       = None)
  ∧ (∀ key,
       String.prefix (str_of hash +:+ "_") key = false →
       chunk_set_at (nukeUser hash st).2 key = chunk_set_at st key).
Proof.
  intros Hreach Hvalid.
  destruct (reachable_registry_inv J st Hreach) as (Hnodup & _ & _).
  rewrite (nukeUser_valid hash st Hvalid).
  cbn [snd users set_fileChunks set_users set_messages].
  rewrite (remove_user_filter _ _ Hnodup).
  split; [apply has_user_filter_out |]. split; [done |].
  unfold chunk_set_at, drop_chunk_sets.
  cbn [fileChunks heap set_fileChunks set_users set_messages].
  split.
  - intros fileName.
    assert (filter
              (λ kv : string * nat,
                 String.prefix (str_of hash +:+ "_") kv.1 = false)
              (fileChunks st) !! chunk_key (str_of hash) fileName = None)
      as ->; [| done].
    apply map_lookup_filter_None_2. right.
    intros l _. cbn [fst]. by rewrite prefix_chunk_key.
  - intros key Hkey.
    destruct (fileChunks st !! key) as [l |] eqn:Hl.
    + assert (filter
                (λ kv : string * nat,
                   String.prefix (str_of hash +:+ "_") kv.1 = false)
                (fileChunks st) !! key = Some l) as ->; [| done].
      by apply map_lookup_filter_Some_2.
    + assert (filter
                (λ kv : string * nat,
                   String.prefix (str_of hash +:+ "_") kv.1 = false)
                (fileChunks st) !! key = None) as ->; [| done].
      apply map_lookup_filter_None_2. by left.
Qed.

Lemma nukeUser_forgets_witness :
  has_user (str_of (JStr sample_hash))
           (users (nukeUser (JStr sample_hash) (after_registrations None)).2)
  = false
  ∧ users (nukeUser (JStr sample_hash) (after_registrations None)).2
    = List.filter
        (λ u, negb (String.eqb (User.hash u) (str_of (JStr sample_hash))))
        (users (after_registrations None))
  ∧ (∀ fileName,
       chunk_set_at (nukeUser (JStr sample_hash) (after_registrations None)).2
                    (chunk_key (str_of (JStr sample_hash)) fileName)
       = None)
  ∧ (∀ key,
       String.prefix (str_of (JStr sample_hash) +:+ "_") key = false →
       chunk_set_at (nukeUser (JStr sample_hash) (after_registrations None)).2
                    key
       = chunk_set_at (after_registrations None) key).
Proof.
  apply (nukeUser_forgets None (JStr sample_hash) (after_registrations None)).
  - eapply rtc_l; [eexists; apply fires_request |].
    eapply rtc_l; [eexists; apply fires_request |].
    apply rtc_once. eexists. apply fires_request.
  - reflexivity.
Defined.

Lemma list_filter_idemp {A} (f : A → bool) (l : list A) :
  List.filter f (List.filter f l) = List.filter f l.
Proof.
  induction l as [| x l IH]; [done |]. simpl.
  destruct (f x) eqn:Hx; simpl; [| done]. by rewrite Hx, IH.
Qed.

(** X9.  In a reachable state, a second nuke request of the same valid
    identifier succeeds and changes nothing. *)
Theorem nukeUser_idempotent J (hash : json) st :
  reachable J st →
  validateHash hash = true →
  nukeUser hash (nukeUser hash st).2 = (Success, (nukeUser hash st).2).
Proof.
  intros Hreach Hvalid.
  destruct (reachable_registry_inv J st Hreach) as (Hnodup & _ & _).
  rewrite (nukeUser_valid hash st Hvalid).
  rewrite (nukeUser_valid hash _ Hvalid).
  cbn [snd messages users fileChunks set_fileChunks set_users set_messages].
  rewrite list_filter_idemp.
  rewrite (remove_user_filter _ _ Hnodup).
  assert (NoDup (User.hash
                   <$> List.filter
                         (λ u, negb (String.eqb (User.hash u) (str_of hash)))
                         (users st))) as Hnodup'.
  { eapply sublist_NoDup; [exact Hnodup |].
    apply fmap_sublist, list_filter_sublist. }
  rewrite (remove_user_filter _ _ Hnodup'), list_filter_idemp.
  unfold drop_chunk_sets. rewrite map_filter_filter_l by done.
  done.
Qed.

Lemma nukeUser_idempotent_witness :
  nukeUser (JStr sample_hash)
           (nukeUser (JStr sample_hash) (after_registrations None)).2
  = (Success, (nukeUser (JStr sample_hash) (after_registrations None)).2).
Proof.
  apply (nukeUser_idempotent None (JStr sample_hash) (after_registrations None)).
  - eapply rtc_l; [eexists; apply fires_request |].
    eapply rtc_l; [eexists; apply fires_request |].
    apply rtc_once. eexists. apply fires_request.
  - reflexivity.
Defined.

(** ** More on the rate limiter *)

Section RateLimitMore.
Implicit Types (m : gmap string RateRecord.t) (ip : option string).

(** The decision and the new record of a client depend on its own record
    only. *)
Lemma rateLimit_own_record ip now m1 m2 :
  m1 !! client_identifier ip = m2 !! client_identifier ip →
  (rateLimit ip now m1).1 = (rateLimit ip now m2).1
  ∧ (rateLimit ip now m1).2 !! client_identifier ip
    = (rateLimit ip now m2).2 !! client_identifier ip.
Proof.
  intros Hsame. unfold rateLimit. rewrite Hsame.
  destruct (m2 !! client_identifier ip) as [record |] eqn:Hrec; simpl.
  - repeat case_match; simpl; rewrite ?lookup_insert_eq; try done.
    split; congruence.
  - by rewrite !lookup_insert_eq.
Qed.

Lemma rateLimit_other_record ip now m id :
  id ≠ client_identifier ip → (rateLimit ip now m).2 !! id = m !! id.
Proof.
  intros Hne. unfold rateLimit.
  repeat case_match; simpl; by rewrite ?lookup_insert_ne.
Qed.

Lemma rateLimit_counts_in_budget ip now m :
  counts_in_budget m → counts_in_budget (rateLimit ip now m).2.
Proof.
  intros Hinv id record. unfold rateLimit.
  destruct (m !! client_identifier ip) as [old |] eqn:Hold.
  - destruct (Z.gtb_spec now (RateRecord.resetTime old)).
    + cbn [snd]. intros [[_ <-] | [_ Hid]]%lookup_insert_Some; [| eauto].
      by vm_compute.
    + destruct (Z.geb_spec (RateRecord.count old) RATE_LIMIT_MAX_REQUESTS);
        cbn [snd]; [eauto |].
      intros [[_ <-] | [_ Hid]]%lookup_insert_Some; [| eauto].
      specialize (Hinv _ _ Hold). cbn [RateRecord.count]. lia.
  - cbn [snd]. intros [[_ <-] | [_ Hid]]%lookup_insert_Some; [| eauto].
    by vm_compute.
Qed.

Lemma rateLimitCleanup_lookup t m id :
  rateLimitCleanup t m !! id
  = match m !! id with
    | Some record =>
        if decide (t > RateRecord.resetTime record) then None else Some record
    | None => None
    end.
Proof.
  unfold rateLimitCleanup.
  destruct (m !! id) as [record |] eqn:Hrec.
  - case_decide.
    + apply map_lookup_filter_None_2. right. intros x Hx.
      rewrite Hrec in Hx. injection Hx as <-. cbn [snd]. tauto.
    + by apply map_lookup_filter_Some_2.
  - apply map_lookup_filter_None_2. by left.
Qed.
End RateLimitMore.

Lemma handle_rateLimitMap J r env st :
  rateLimitMap (handle J r env st).2 = rateLimitMap st.
Proof.
  destruct r; cbn [handle].
  - unfold registerUser. handler_cases.
  - unfold registerJournalist. handler_cases.
  - unfold sendMessage. handler_cases.
  - unfold sendChunk, write_chunk, ensure_chunk_set. handler_cases.
  - unfold getMessages. handler_cases.
  - unfold nukeUser. handler_cases.
  - done.
Qed.

(** X10.  The calls of one client do not touch the record of another
    client, nor the decision the rate limiter takes for it. *)
Theorem rateLimit_clients_independent ip1 ip2 now1 now2
    (m : gmap string RateRecord.t) :
  client_identifier ip1 ≠ client_identifier ip2 →
  (rateLimit ip1 now1 m).2 !! client_identifier ip2
  = m !! client_identifier ip2
  ∧ (rateLimit ip2 now2 (rateLimit ip1 now1 m).2).1
    = (rateLimit ip2 now2 m).1.
Proof.
  intros Hne.
  assert ((rateLimit ip1 now1 m).2 !! client_identifier ip2
          = m !! client_identifier ip2) as Hsame
    by (by apply rateLimit_other_record).
  split; [done |]. by apply rateLimit_own_record.
Qed.

Lemma rateLimit_clients_independent_witness :
  (rateLimit sample_ip 0 ∅).2 !! client_identifier None
  = (∅ : gmap string RateRecord.t) !! client_identifier None
  ∧ (rateLimit None 5 (rateLimit sample_ip 0 ∅).2).1 = (rateLimit None 5 ∅).1.
Proof.
  apply (rateLimit_clients_independent sample_ip None 0 5 ∅).
  discriminate.
Defined.

(** X11.  In every reachable state each rate-limit record counts at least
    one request and at most [RATE_LIMIT_MAX_REQUESTS]. *)
Theorem rate_records_in_budget J st id record :
  reachable J st →
  rateLimitMap st !! id = Some record →
  1 ≤ RateRecord.count record ≤ RATE_LIMIT_MAX_REQUESTS.
Proof.
  intros Hreach. revert id record.
  change (counts_in_budget (rateLimitMap st)). revert st Hreach.
  apply (reachable_invariant J (λ st, counts_in_budget (rateLimitMap st))).
  - unfold counts_in_budget. simpl. intros id record.
    by rewrite lookup_empty.
  - intros s s' Hinv [e Hfires].
    destruct Hfires as [ip now r env s | | | now s]; try done.
    + unfold serve.
      pose proof (rateLimit_counts_in_budget ip now _ Hinv) as Hnew.
      destruct (rateLimit ip now (rateLimitMap s)) as [[] m]; [| done].
      by rewrite handle_rateLimitMap.
    + cbn [rateLimitMap set_rateLimitMap]. intros id record Hid.
      rewrite rateLimitCleanup_lookup in Hid.
      destruct (rateLimitMap s !! id) as [old |] eqn:Hold; [| done].
      case_decide; [done |]. injection Hid as <-. eauto.
Qed.

Lemma rate_records_in_budget_witness :
  1 ≤ RateRecord.count (fresh_record 0) ≤ RATE_LIMIT_MAX_REQUESTS.
Proof.
  apply (rate_records_in_budget None (after_one_message None)
           (client_identifier sample_ip) (fresh_record 0)).
  - apply rtc_once. eexists. apply fires_request.
  - reflexivity.
Defined.

(** X12.  The periodic clean-up is not seen by the clients: for a call that
    comes no earlier than the clean-up, the decision and the client's new
    record are the same whether the clean-up ran or not. *)
Theorem rateLimitCleanup_transparent ip t now
    (m : gmap string RateRecord.t) :
  t ≤ now →
  (rateLimit ip now (rateLimitCleanup t m)).1 = (rateLimit ip now m).1
  ∧ (rateLimit ip now (rateLimitCleanup t m)).2 !! client_identifier ip
    = (rateLimit ip now m).2 !! client_identifier ip.
Proof.
  intros Hle.
  pose proof (rateLimitCleanup_lookup t m (client_identifier ip)) as Hclean.
  destruct (m !! client_identifier ip) as [record |] eqn:Hrec.
  - case_decide.
    + rewrite (rateLimit_first_seen _ _ _ Hclean).
      rewrite (rateLimit_expired _ _ _ _ Hrec) by lia.
      cbn [fst snd]. by rewrite !lookup_insert_eq.
    + apply rateLimit_own_record. congruence.
  - apply rateLimit_own_record. congruence.
Qed.

Lemma rateLimitCleanup_transparent_witness :
  (rateLimit sample_ip 70000
     (rateLimitCleanup 65000 (rateLimit sample_ip 0 ∅).2)).1
  = (rateLimit sample_ip 70000 (rateLimit sample_ip 0 ∅).2).1
  ∧ (rateLimit sample_ip 70000
       (rateLimitCleanup 65000 (rateLimit sample_ip 0 ∅).2)).2
    !! client_identifier sample_ip
    = (rateLimit sample_ip 70000 (rateLimit sample_ip 0 ∅).2).2
      !! client_identifier sample_ip.
Proof.
  apply (rateLimitCleanup_transparent sample_ip 65000 70000
           (rateLimit sample_ip 0 ∅).2).
  lia.
Defined.

(** X13.  The window is fixed, not sliding: a client that uses its 100
    calls in one window and calls again once the window is over is let
    through 100 more times, so 200 calls in a row can all pass. *)
Theorem rateLimit_window_edge_burst ip t0 times1 t1 times2
    (m : gmap string RateRecord.t) :
  opens_window ip t0 m →
  length times1 = 99%nat →
  Forall (λ t, t ≤ t0 + RATE_LIMIT_WINDOW) times1 →
  t1 > t0 + RATE_LIMIT_WINDOW →
  length times2 = 99%nat →
  Forall (λ t, t ≤ t1 + RATE_LIMIT_WINDOW) times2 →
  (admit_all ip (t0 :: times1 ++ t1 :: times2) m).1 = replicate 200 Next.
Proof.
  intros Hopen Hlen1 Hin1 Ht1 Hlen2 Hin2.
  cbn [admit_all]. rewrite (rateLimit_opens_window _ _ _ Hopen).
  rewrite admit_all_app.
  rewrite (admit_all_within ip times1 _ 1 (t0 + RATE_LIMIT_WINDOW));
    [| by rewrite lookup_insert_eq | done
     | rewrite Hlen1; unfold RATE_LIMIT_MAX_REQUESTS; lia ].
  rewrite Hlen1, insert_insert_eq. cbn [fst snd admit_all].
  rewrite (rateLimit_expired ip t1 _ (RateRecord.mk 100 (t0 + RATE_LIMIT_WINDOW)));
    [| by rewrite lookup_insert_eq | simpl; lia ].
  rewrite insert_insert_eq.
  rewrite (admit_all_within ip times2 _ 1 (t1 + RATE_LIMIT_WINDOW));
    [| by rewrite lookup_insert_eq | done
     | rewrite Hlen2; unfold RATE_LIMIT_MAX_REQUESTS; lia ].
  rewrite Hlen2. cbn [fst snd].
  change (Next :: replicate 99 Next) with (replicate 100 Next).
  change (Next :: replicate 99 Next) with (replicate 100 Next).
  by rewrite <- replicate_add.
Qed.

Lemma rateLimit_window_edge_burst_witness :
  (admit_all sample_ip
     (0 :: replicate 99 60000 ++ 60001 :: replicate 99 60002) ∅).1
  = replicate 200 Next.
Proof.
  apply (rateLimit_window_edge_burst sample_ip 0 (replicate 99 60000) 60001
           (replicate 99 60002) ∅).
  - exact I.
  - reflexivity.
  - apply Forall_replicate. unfold RATE_LIMIT_WINDOW. lia.
  - unfold RATE_LIMIT_WINDOW. lia.
  - reflexivity.
  - apply Forall_replicate. unfold RATE_LIMIT_WINDOW. lia.
Defined.

(** ** The journalist's key over all events *)

(** X14.  Once the journalist's key is set, no request of any route and no
    timer clears it, and it changes only by a journalist registration whose
    secret is strictly equal to [process.env.JOURNALIST_SECRET] and whose
    public key is a non-empty string. *)
Theorem journalist_key_changes_only_when_authorised J e st st' k :
  reachable J st →
  fires J e st st' →
  journalistPublicKey st = Some k →
  journalistPublicKey st' = Some k
  ∨ ∃ ip now publicKey secret env,
      e = Request ip now (RegisterJournalist (JStr publicKey) secret) env
      ∧ strict_eq_env secret J = true
      ∧ publicKey ≠ ""%string
      ∧ journalistPublicKey st' = Some publicKey.
Proof.
  intros Hreach Hfires Hk.
  pose proof (reachable_key_truthy J st Hreach k Hk) as Hne.
  destruct Hfires as [ip now r env st | | |]; try by left.
  unfold serve. destruct (rateLimit _ _ _) as [[] m]; [| by left].
  destruct r; cbn [handle].
  - left. unfold registerUser. handler_cases.
  - unfold registerJournalist.
    cbn [journalistPublicKey set_rateLimitMap]. rewrite Hk. simpl.
    destruct (String.eqb_spec k ""); [done |]. simpl.
    destruct (strict_eq_env secret J) eqn:Hsecret; simpl; [| by left].
    destruct (negb (truthy publicKey) || negb (is_string publicKey)) eqn:Hpk;
      [by left |].
    apply non_empty_string_guard in Hpk as (pk & -> & Hpk).
    right. by eexists ip, now, pk, secret, env.
  - left. unfold sendMessage. handler_cases.
  - left. unfold sendChunk, write_chunk, ensure_chunk_set. handler_cases.
  - left. unfold getMessages. handler_cases.
  - left. unfold nukeUser. handler_cases.
  - by left.
Qed.

Lemma journalist_key_changes_only_when_authorised_witness :
  journalistPublicKey
    (serve (Some "s3cret"%string) sample_ip 1
       (RegisterJournalist (JStr "PUB2") (JStr "s3cret")) sample_env
       (after_first_journalist (Some "s3cret"%string))).2
  = Some "PUB1"%string
  ∨ ∃ ip now publicKey secret env,
      Request sample_ip 1 (RegisterJournalist (JStr "PUB2") (JStr "s3cret"))
              sample_env
      = Request ip now (RegisterJournalist (JStr publicKey) secret) env
      ∧ strict_eq_env secret (Some "s3cret"%string) = true
      ∧ publicKey ≠ ""%string
      ∧ journalistPublicKey
          (serve (Some "s3cret"%string) sample_ip 1
             (RegisterJournalist (JStr "PUB2") (JStr "s3cret")) sample_env
             (after_first_journalist (Some "s3cret"%string))).2
        = Some publicKey.
Proof.
  apply (journalist_key_changes_only_when_authorised
           (Some "s3cret"%string)
           (Request sample_ip 1
              (RegisterJournalist (JStr "PUB2") (JStr "s3cret")) sample_env)
           (after_first_journalist (Some "s3cret"%string)) _ "PUB1").
  - apply rtc_once. eexists. apply fires_request.
  - apply fires_request.
  - reflexivity.
Defined.

(** ** Chunk sets and the messages that show them *)

(** X15.  The file message holds the chunk set itself, not a copy: while
    the set is still under its key, a further chunk for the key is written
    into the file data of the message already stored, and stamps its
    [lastUpdate]. *)
Theorem sendChunk_alters_stored_file
    from fileName ci tc data ft fs env st l cs m :
  from ≠ ""%string → valid_file_name fileName → valid_chunk_data data →
  fileChunks st !! chunk_key from fileName = Some l →
  heap st !! l = Some cs →
  m ∈ messages st →
  Message.fileData m = Some l →
  m ∈ messages
        (sendChunk (ChunkBody.mk (JStr from) (JNum ci) (JNum tc) (JStr data)
                                 (JStr fileName) ft fs) env st).2
  ∧ file_data_of st m = Some cs
  ∧ file_data_of
      (sendChunk (ChunkBody.mk (JStr from) (JNum ci) (JNum tc) (JStr data)
                               (JStr fileName) ft fs) env st).2 m
    = Some (ChunkSet.store_chunk ci data (dateNow env 0) cs).
Proof.
  intros Hfrom Hname Hdata Hkey Hcs Hm Hfile.
  rewrite (sendChunk_stores from fileName _ _ _ ft fs env st l cs) by done.
  cbn zeta. cbn [snd]. unfold file_data_of. rewrite Hfile. simpl.
  pose proof (lookup_lt_Some _ _ _ Hcs).
  case_bool_decide; cbn [messages heap set_pendingCleanups set_messages
    set_heap]; rewrite list_lookup_insert_eq by done;
    repeat split; try done.
  apply elem_of_app. by left.
Qed.

Lemma sendChunk_alters_stored_file_witness :
  file_message "u1" 0 sample_env
  ∈ messages (sendChunk altered_chunk sample_env after_three_chunks).2
  ∧ file_data_of after_three_chunks (file_message "u1" 0 sample_env)
    = Some (ChunkSet.mk "u1" "a.txt" (JStr "text/plain") (JNum (num_of_Z 12))
              (num_of_nat 3)
              (all_chunks 3 (λ _, "QUJD"%string)) (Some 1700000000000))
  ∧ file_data_of (sendChunk altered_chunk sample_env after_three_chunks).2
                 (file_message "u1" 0 sample_env)
    = Some (ChunkSet.store_chunk (num_of_nat 1) "WFla"
              (dateNow sample_env 0)
              (ChunkSet.mk "u1" "a.txt" (JStr "text/plain")
                 (JNum (num_of_Z 12)) (num_of_nat 3)
                 (all_chunks 3 (λ _, "QUJD"%string)) (Some 1700000000000))).
Proof.
  apply (sendChunk_alters_stored_file
           "u1" "a.txt" (num_of_nat 1) (num_of_nat 3) "WFla"
           (JStr "text/plain") (JNum (num_of_Z 12)) sample_env
           after_three_chunks 0).
  - discriminate.
  - split; [discriminate | by vm_compute].
  - split; [discriminate | by vm_compute].
  - reflexivity.
  - by vm_compute.
  - assert (messages after_three_chunks = [file_message "u1" 0 sample_env])
      as -> by reflexivity.
    by left.
  - reflexivity.
Defined.

(** X16.  A chunk request writes into the chunk set under its own key and
    nowhere else: the file data of a stored message whose chunk set is not
    (or no longer) under the key of the request is left as it was. *)
Theorem sendChunk_spares_other_files body env st m l :
  Message.fileData m = Some l →
  is_Some (heap st !! l) →
  fileChunks st !! chunk_key (str_of (ChunkBody.from body))
                             (str_of (ChunkBody.fileName body))
  ≠ Some l →
  file_data_of (sendChunk body env st).2 m = file_data_of st m.
Proof.
  intros Hfile Halloc Hkey. unfold file_data_of. rewrite Hfile. simpl.
  apply lookup_lt_is_Some_1 in Halloc.
  destruct (sendChunk_cases body env st)
    as [[error ->] | (from & ci & tc & data & fileName & Hbody & Hfrom
                      & Hname & Hdata)]; [done |].
  destruct body as [? ? ? ? ? ft fs]. injection Hbody as -> -> -> -> ->.
  cbn [ChunkBody.from ChunkBody.fileName str_of] in Hkey.
  destruct (get_fileChunks (chunk_key from fileName) (fileChunks st))
    as [l' | |] eqn:Hget.
  - destruct (heap st !! l') as [cs |] eqn:Hcs.
    + apply get_fileChunks_Own in Hget.
      rewrite (sendChunk_stores from fileName _ _ _ ft fs env st l' cs)
        by done.
      cbn zeta. cbn [snd].
      case_bool_decide; cbn [heap set_pendingCleanups set_messages set_heap];
        rewrite list_lookup_insert_ne; congruence.
    + by rewrite sendChunk_failure
        by (rewrite sendChunk_valid by done;
            unfold ensure_chunk_set, write_chunk;
            by rewrite Hget, Hget, Hcs).
  - by rewrite sendChunk_inherited.
  - rewrite sendChunk_creates by done.
    rewrite (sendChunk_stores from fileName _ _ _ ft fs env _
               (length (heap st))
               (ChunkSet.mk from fileName ft fs tc ∅ None)); try done; cycle 1.
    { cbn [fileChunks set_fileChunks]. by rewrite lookup_insert_eq. }
    { cbn [heap set_fileChunks set_heap]. by rewrite list_lookup_middle. }
    cbn zeta. cbn [snd].
    case_bool_decide; cbn [heap set_pendingCleanups set_messages set_heap
      set_fileChunks];
      (rewrite list_lookup_insert_ne by lia; by rewrite lookup_app_l).
Qed.

Lemma sendChunk_spares_other_files_witness :
  file_data_of (sendChunk other_file_chunk sample_env after_three_chunks).2
               (file_message "u1" 0 sample_env)
  = file_data_of after_three_chunks (file_message "u1" 0 sample_env).
Proof.
  apply (sendChunk_spares_other_files other_file_chunk sample_env
           after_three_chunks (file_message "u1" 0 sample_env) 0).
  - reflexivity.
  - vm_compute. eauto.
  - by vm_compute.
Defined.

(** ** What a completed transfer stores *)

Section TransferContent.
Context (from fileName : string) (N : nat) (data : nat → string)
        (ft fs : json) (env_of : nat → environment).
Context (Hfrom : from ≠ ""%string) (Hname : valid_file_name fileName).

(** The chunks written by a run of requests, over what the set held. *)
Lemma submit_rest_content l : ∀ rest st cs,
  (∀ i, i ∈ rest → valid_chunk_data (data i)) →
  fileChunks st !! chunk_key from fileName = Some l →
  heap st !! l = Some cs →
  NoDup rest →
  ∃ cs',
    heap (submit_all (transfer from fileName N data ft fs env_of rest) st).2
    !! l = Some cs'
    ∧ ChunkSet.chunks cs'
      = list_to_map ((λ i, (num_of_nat i, data i)) <$> rest)
        ∪ ChunkSet.chunks cs
    ∧ ChunkSet.from cs' = ChunkSet.from cs
    ∧ ChunkSet.fileName cs' = ChunkSet.fileName cs
    ∧ ChunkSet.fileType cs' = ChunkSet.fileType cs
    ∧ ChunkSet.fileSize cs' = ChunkSet.fileSize cs
    ∧ ChunkSet.totalChunks cs' = ChunkSet.totalChunks cs.
Proof.
  induction rest as [| i rest IH]; intros st cs Hdata Hkey Hcs Hnodup.
  { exists cs. simpl. by rewrite (left_id_L ∅ (∪)). }
  apply NoDup_cons in Hnodup as [Hi Hnodup].
  pose proof (lookup_lt_Some _ _ _ Hcs) as Hl.
  pose proof (sendChunk_stores from fileName (num_of_nat i) (num_of_nat N)
                (data i) ft fs (env_of i) st l cs Hfrom Hname
                (Hdata i ltac:(left)) Hkey Hcs) as Hstep.
  change (ChunkBody.mk _ _ _ _ _ _ _)
    with (chunk_of from fileName N data ft fs i) in Hstep.
  cbn zeta in Hstep.
  unfold transfer in *. rewrite fmap_cons, submit_all_cons, Hstep.
  cbn [snd].
  set (cs1 := ChunkSet.store_chunk (num_of_nat i) (data i)
                (dateNow (env_of i) 0) cs) in *.
  match goal with
  | |- context [submit_all _ ?s] => set (st1 := s)
  end.
  destruct (IH st1 cs1) as (cs' & Hcs' & Hchunks & Hrest).
  - intros ? ?. apply Hdata. by right.
  - unfold st1. by case_bool_decide.
  - unfold st1. case_bool_decide;
      cbn [heap set_pendingCleanups set_messages set_heap];
      by apply list_lookup_insert_eq.
  - done.
  - exists cs'. split; [done |]. split; [| done].
    rewrite Hchunks. cbn [cs1 ChunkSet.store_chunk ChunkSet.chunks].
    rewrite fmap_cons. cbn [list_to_map foldr uncurry fst snd].
    rewrite <- insert_union_l. symmetry. apply insert_union_r.
    apply not_elem_of_list_to_map_1. rewrite <- list_fmap_compose.
    intros (j & Hj & Hin)%list_elem_of_fmap. cbn in Hj.
    apply num_of_nat_inj in Hj as <-. done.
Qed.

(** X17.  For a sender and file name whose key has no chunk set and names
    no inherited property, the chunks 0 to [N - 1] sent once each in any
    order end with exactly one new message; it carries the sender, has
    [hasFiles] true, and its file data holds the file name, type and size of
    the first request, [totalChunks = N], and under each index the payload
    sent for it. *)
Theorem transfer_reassembles_file order st :
  (1 ≤ N)%nat →
  order ≡ₚ seq 0 N →
  (∀ i, (i < N)%nat → valid_chunk_data (data i)) →
  get_fileChunks (chunk_key from fileName) (fileChunks st) = Missing →
  ∃ msg cs,
    messages
      (submit_all (transfer from fileName N data ft fs env_of order) st).2
    = messages st ++ [msg]
    ∧ Message.from msg = from
    ∧ Message.hasFiles msg = JBool true
    ∧ file_data_of
        (submit_all (transfer from fileName N data ft fs env_of order) st).2
        msg
      = Some cs
    ∧ ChunkSet.from cs = from
    ∧ ChunkSet.fileName cs = fileName
    ∧ ChunkSet.fileType cs = ft
    ∧ ChunkSet.fileSize cs = fs
    ∧ ChunkSet.totalChunks cs = num_of_nat N
    ∧ ChunkSet.chunks cs = all_chunks N data.
Proof.
  intros HN Hperm Hdata Hmissing.
  destruct (transfer_completes_once from fileName N data ft fs env_of
              Hfrom Hname order st HN Hperm Hdata Hmissing)
    as (_ & _ & i & _ & Hmsgs).
  assert (NoDup order) as Hnodup by (rewrite Hperm; apply NoDup_seq).
  assert (∀ i, i ∈ order → valid_chunk_data (data i)) as Hvalid.
  { intros j Hj. apply Hdata. rewrite Hperm in Hj.
    apply elem_of_seq in Hj. lia. }
  destruct order as [| i0 rest].
  { apply Permutation_length in Hperm. rewrite length_seq in Hperm.
    simpl in Hperm. lia. }
  set (fresh := ChunkSet.mk from fileName ft fs (num_of_nat N) ∅ None).
  set (st1 := set_fileChunks
                (<[chunk_key from fileName := length (heap st)]>
                   (fileChunks st))
                (set_heap (heap st ++ [fresh]) st)).
  destruct (submit_rest_content (length (heap st)) (i0 :: rest) st1 fresh)
    as (cs & Hcs & Hchunks & Hf & Hn & Ht & Hs & Htot); try done.
  { cbn [st1 fileChunks set_fileChunks]. by rewrite lookup_insert_eq. }
  { cbn [st1 heap set_fileChunks set_heap]. by rewrite list_lookup_middle. }
  unfold transfer in *. rewrite fmap_cons in *.
  rewrite submit_all_creates in * by (done || apply Hvalid; by left).
  fold fresh in Hmsgs |- *. fold st1 in Hmsgs |- *.
  exists (file_message from (length (heap st)) (env_of i)), cs.
  split; [done |]. split; [done |]. split; [done |].
  unfold file_data_of. cbn [file_message Message.fileData mbind option_bind].
  split; [done |]. repeat split; try done.
  rewrite Hchunks. cbn [fresh ChunkSet.chunks].
  rewrite (right_id_L ∅ (∪)). unfold all_chunks.
  apply list_to_map_proper.
  - rewrite <- list_fmap_compose.
    apply NoDup_fmap_2_strong; [| done].
    intros ? ? _ _. apply num_of_nat_inj.
  - by rewrite Hperm.
Qed.
End TransferContent.

Lemma transfer_reassembles_file_witness :
  ∃ msg cs,
    messages (submit_all three_chunks initial).2 = messages initial ++ [msg]
    ∧ Message.from msg = "u1"%string
    ∧ Message.hasFiles msg = JBool true
    ∧ file_data_of (submit_all three_chunks initial).2 msg = Some cs
    ∧ ChunkSet.from cs = "u1"%string
    ∧ ChunkSet.fileName cs = "a.txt"%string
    ∧ ChunkSet.fileType cs = JStr "text/plain"
    ∧ ChunkSet.fileSize cs = JNum (num_of_Z 12)
    ∧ ChunkSet.totalChunks cs = num_of_nat 3
    ∧ ChunkSet.chunks cs = all_chunks 3 (λ _, "QUJD"%string).
Proof.
  apply (transfer_reassembles_file "u1" "a.txt" 3 (λ _, "QUJD"%string)
           (JStr "text/plain") (JNum (num_of_Z 12)) (λ _, sample_env)).
  - discriminate.
  - split; [discriminate | by vm_compute].
  - lia.
  - cbn [seq]. apply perm_skip, perm_swap.
  - intros i _. split; [discriminate | by vm_compute].
  - by vm_compute.
Defined.

(** X18.  The same transfer, seen from the client: the [k]-th request is
    answered [k] received of [N], and no message is stored before the last
    request. *)
Theorem transfer_reports_progress
    from fileName N data ft fs env_of order st :
  from ≠ ""%string →
  valid_file_name fileName →
  (1 ≤ N)%nat →
  order ≡ₚ seq 0 N →
  (∀ i, (i < N)%nat → valid_chunk_data (data i)) →
  get_fileChunks (chunk_key from fileName) (fileChunks st) = Missing →
  (submit_all (transfer from fileName N data ft fs env_of order) st).1
  = (λ k, ChunkProgress k (num_of_nat N)) <$> seq 1 N
  ∧ ∀ k, (k < N)%nat →
      messages
        (submit_all
           (take k (transfer from fileName N data ft fs env_of order)) st).2
      = messages st.
Proof.
  intros Hfrom Hname HN Hperm Hdata Hmissing.
  destruct (transfer_completes_once from fileName N data ft fs env_of
              Hfrom Hname order st HN Hperm Hdata Hmissing)
    as (Hresp & Hbefore & _).
  done.
Qed.

Lemma transfer_reports_progress_witness :
  (submit_all three_chunks initial).1
  = (λ k, ChunkProgress k (num_of_nat 3)) <$> seq 1 3
  ∧ ∀ k, (k < 3)%nat →
      messages (submit_all (take k three_chunks) initial).2 = messages initial.
Proof.
  apply (transfer_reports_progress "u1" "a.txt" 3 (λ _, "QUJD"%string)
           (JStr "text/plain") (JNum (num_of_Z 12)) (λ _, sample_env)).
  - discriminate.
  - split; [discriminate | by vm_compute].
  - lia.
  - cbn [seq]. apply perm_skip, perm_swap.
  - intros i _. split; [discriminate | by vm_compute].
  - by vm_compute.
Defined.

(** X19.  The first chunk for a key that has no chunk set and names no
    inherited property creates the set from the request: it is answered one
    received, the set records the sender, file name, type, size and total of
    the request and holds this one chunk; a message is stored exactly when
    the request declares a total of one. *)
Theorem sendChunk_first_chunk from fileName ci tc data ft fs env st :
  from ≠ ""%string → valid_file_name fileName → valid_chunk_data data →
  get_fileChunks (chunk_key from fileName) (fileChunks st) = Missing →
  ∃ st',
    sendChunk (ChunkBody.mk (JStr from) (JNum ci) (JNum tc) (JStr data)
                            (JStr fileName) ft fs) env st
    = (ChunkProgress 1 tc, st')
    ∧ chunk_set_at st' (chunk_key from fileName)
      = Some (ChunkSet.mk from fileName ft fs tc {[ci := data]}
                          (Some (dateNow env 0)))
    ∧ messages st'
      = if bool_decide (tc = num_of_nat 1)
        then messages st ++ [file_message from (length (heap st)) env]
        else messages st.
Proof.
  intros Hfrom Hname Hdata Hmissing.
  rewrite sendChunk_creates by done.
  rewrite (sendChunk_stores from fileName _ _ _ ft fs env _ (length (heap st))
             (ChunkSet.mk from fileName ft fs tc ∅ None)); try done; cycle 1.
  { cbn [fileChunks set_fileChunks]. by rewrite lookup_insert_eq. }
  { cbn [heap set_fileChunks set_heap]. by rewrite list_lookup_middle. }
  cbn zeta. cbn [ChunkSet.store_chunk ChunkSet.chunks].
  rewrite insert_empty, map_size_singleton.
  eexists. split; [reflexivity |]. unfold chunk_set_at.
  destruct (decide (tc = num_of_nat 1)) as [-> | Hne].
  - rewrite !bool_decide_eq_true_2 by done.
    cbn [fileChunks heap messages set_pendingCleanups set_messages set_heap
         set_fileChunks].
    rewrite lookup_insert_eq. cbn [mbind option_bind].
    by rewrite list_lookup_insert_eq
      by (rewrite length_app; simpl; lia).
  - rewrite !bool_decide_eq_false_2 by congruence.
    cbn [fileChunks heap messages set_heap set_fileChunks].
    rewrite lookup_insert_eq. cbn [mbind option_bind].
    by rewrite list_lookup_insert_eq
      by (rewrite length_app; simpl; lia).
Qed.

Lemma sendChunk_first_chunk_witness :
  ∃ st',
    sendChunk other_file_chunk sample_env after_three_chunks
    = (ChunkProgress 1 (num_of_Z 2), st')
    ∧ chunk_set_at st' (chunk_key "u1" "b.txt")
      = Some (ChunkSet.mk "u1" "b.txt" (JStr "text/plain") (JNum (num_of_Z 3))
                (num_of_Z 2) {[num_of_Z 0 := "QUJD"%string]}
                (Some (dateNow sample_env 0)))
    ∧ messages st'
      = if bool_decide (num_of_Z 2 = num_of_nat 1)
        then messages after_three_chunks
             ++ [file_message "u1" (length (heap after_three_chunks))
                              sample_env]
        else messages after_three_chunks.
Proof.
  apply (sendChunk_first_chunk "u1" "b.txt" (num_of_Z 0) (num_of_Z 2) "QUJD"
           (JStr "text/plain") (JNum (num_of_Z 3)) sample_env
           after_three_chunks).
  - discriminate.
  - split; [discriminate | by vm_compute].
  - split; [discriminate | by vm_compute].
  - by vm_compute.
Defined.

(** ** Keys of the chunk sets *)

Lemma string_app_assoc (a b c : string) : (a +:+ b) +:+ c = a +:+ (b +:+ c).
Proof.
  induction a as [| x a IH]; [done |].
  change (String x ((a +:+ b) +:+ c) = String x (a +:+ b +:+ c)).
  by f_equal.
Qed.

Lemma chunk_key_shift (a b c : string) :
  chunk_key (a +:+ "_" +:+ b) c = chunk_key a (b +:+ "_" +:+ c).
Proof. unfold chunk_key. by rewrite !string_app_assoc. Qed.

(** X20.  The key of a chunk set is the sender, an underscore and the file
    name joined, so the sender [a_b] with the file [c] and the sender [a]
    with the file [b_c] write into one chunk set: a chunk of the second
    completes the two-chunk file begun by the first, and the message stored
    carries the second sender while its file data names the first. *)
Theorem chunk_sets_shared_by_key a b c d1 d2 ft1 fs1 ft2 fs2 env1 env2 st :
  a ≠ ""%string →
  valid_file_name c →
  valid_file_name (b +:+ "_" +:+ c) →
  valid_chunk_data d1 →
  valid_chunk_data d2 →
  get_fileChunks (chunk_key (a +:+ "_" +:+ b) c) (fileChunks st) = Missing →
  ∃ st',
    sendChunk
      (ChunkBody.mk (JStr a) (JNum (num_of_nat 1)) (JNum (num_of_nat 2))
                    (JStr d2) (JStr (b +:+ "_" +:+ c)) ft2 fs2)
      env2
      (sendChunk
         (ChunkBody.mk (JStr (a +:+ "_" +:+ b)) (JNum (num_of_nat 0))
                       (JNum (num_of_nat 2)) (JStr d1) (JStr c) ft1 fs1)
         env1 st).2
    = (ChunkProgress 2 (num_of_nat 2), st')
    ∧ messages st'
      = messages st ++ [file_message a (length (heap st)) env2]
    ∧ file_data_of st' (file_message a (length (heap st)) env2)
      = Some (ChunkSet.mk (a +:+ "_" +:+ b) c ft1 fs1 (num_of_nat 2)
                (<[num_of_nat 1 := d2]> {[num_of_nat 0 := d1]})
                (Some (dateNow env2 0))).
Proof.
  intros Ha Hc Hbc Hd1 Hd2 Hmissing.
  assert (a +:+ "_" +:+ b ≠ ""%string) as Hab by (by destruct a).
  rewrite (sendChunk_creates (a +:+ "_" +:+ b) c) by done.
  set (fresh := ChunkSet.mk (a +:+ "_" +:+ b) c ft1 fs1 (num_of_nat 2) ∅ None).
  rewrite (sendChunk_stores (a +:+ "_" +:+ b) c _ _ _ ft1 fs1 env1 _
             (length (heap st)) fresh); try done; cycle 1.
  { cbn [fileChunks set_fileChunks]. by rewrite lookup_insert_eq. }
  { cbn [heap set_fileChunks set_heap]. by rewrite list_lookup_middle. }
  cbn zeta. cbn [fresh ChunkSet.store_chunk ChunkSet.chunks ChunkSet.from
    ChunkSet.fileName ChunkSet.fileType ChunkSet.fileSize
    ChunkSet.totalChunks].
  rewrite insert_empty, map_size_singleton.
  rewrite bool_decide_eq_false_2 by (intros ?%num_of_nat_inj; lia).
  cbn [snd]. rewrite chunk_key_shift.
  set (cs1 := ChunkSet.mk (a +:+ "_" +:+ b) c ft1 fs1 (num_of_nat 2)
                {[num_of_nat 0 := d1]} (Some (dateNow env1 0))).
  rewrite (sendChunk_stores a (b +:+ "_" +:+ c) _ _ _ ft2 fs2 env2 _
             (length (heap st)) cs1); try done; cycle 1.
  { cbn [fileChunks set_heap set_fileChunks]. by rewrite lookup_insert_eq. }
  { cbn [heap set_heap set_fileChunks].
    apply list_lookup_insert_eq. rewrite length_app. simpl. lia. }
  cbn zeta. cbn [cs1 ChunkSet.store_chunk ChunkSet.chunks ChunkSet.from
    ChunkSet.fileName ChunkSet.fileType ChunkSet.fileSize
    ChunkSet.totalChunks].
  assert (size (<[num_of_nat 1 := d2]>
                  ({[num_of_nat 0 := d1]} : gmap jsnum string)) = 2%nat)
    as Hsize.
  { rewrite map_size_insert_None, map_size_singleton; [done |].
    apply lookup_singleton_ne. intros ?%num_of_nat_inj. lia. }
  rewrite Hsize, bool_decide_eq_true_2 by done.
  eexists. split; [reflexivity |]. split; [done |].
  unfold file_data_of.
  cbn [file_message Message.fileData mbind option_bind heap
       set_pendingCleanups set_messages set_heap set_fileChunks].
  apply list_lookup_insert_eq. rewrite length_insert, length_app. simpl. lia.
Qed.

Lemma chunk_sets_shared_by_key_witness :
  ∃ st',
    sendChunk
      (ChunkBody.mk (JStr "u1") (JNum (num_of_nat 1)) (JNum (num_of_nat 2))
                    (JStr "WFla") (JStr ("x" +:+ "_" +:+ "a.txt")) JUndef
                    JUndef)
      sample_env
      (sendChunk
         (ChunkBody.mk (JStr ("u1" +:+ "_" +:+ "x")) (JNum (num_of_nat 0))
                       (JNum (num_of_nat 2)) (JStr "QUJD") (JStr "a.txt")
                       (JStr "text/plain") (JNum (num_of_Z 8)))
         sample_env initial).2
    = (ChunkProgress 2 (num_of_nat 2), st')
    ∧ messages st'
      = messages initial ++ [file_message "u1" (length (heap initial)) sample_env]
    ∧ file_data_of st' (file_message "u1" (length (heap initial)) sample_env)
      = Some (ChunkSet.mk ("u1" +:+ "_" +:+ "x") "a.txt" (JStr "text/plain")
                (JNum (num_of_Z 8)) (num_of_nat 2)
                (<[num_of_nat 1 := "WFla"%string]>
                   {[num_of_nat 0 := "QUJD"%string]})
                (Some (dateNow sample_env 0))).
Proof.
  apply (chunk_sets_shared_by_key "u1" "x" "a.txt" "QUJD" "WFla"
           (JStr "text/plain") (JNum (num_of_Z 8)) JUndef JUndef
           sample_env sample_env initial).
  - discriminate.
  - split; [discriminate | by vm_compute].
  - split; [discriminate | by vm_compute].
  - split; [discriminate | by vm_compute].
  - split; [discriminate | by vm_compute].
  - by vm_compute.
Defined.
